(** * The in-memory build service

    A model of the [inmemService] implementation of the [Service] interface:
    a [map[string]Build] guarded by one [sync.RWMutex].

    The first part models the five methods as functions on the map field [m].
    Every method but [GetBuild] brackets its body with [s.mtx.Lock()] and a
    deferred [s.mtx.Unlock()]; for a call that runs alone the pair leaves the
    mutex as it found it, so the sequential model threads the map only.  The
    [ctx] argument is used by no method and is dropped.

    The second part ([Module Conc]) models [PostBuild] statement by statement,
    with the mutex, run by several goroutines under every interleaving. *)

From stdpp Require Import base gmap strings list.

Module BuildService.

(** ** Data *)

(** [type Build struct { ID string; Name string }] *)
Record Build := mkBuild { ID : string; Name : string }.

#[global] Instance Build_eq_dec : EqDecision Build.
Proof. solve_decision. Defined.

(** The three package-level error values. *)
Inductive error := ErrInconsistentIDs | ErrAlreadyExists | ErrNotFound.

#[global] Instance error_eq_dec : EqDecision error.
Proof. solve_decision. Defined.

(** The field [m map[string]Build] of [inmemService]. *)
Abbreviation store := (gmap string Build).

(** [Build{}], the zero value returned next to [ErrNotFound]. *)
Definition zeroBuild : Build := mkBuild "" "".

(** [NewInmemService]: [m: map[string]Build{}]. *)
Definition NewInmemService : store := ∅.

(** ** The five methods

    A method returning [error] is a function to [store * option error]:
    the map after the call and [None] for a [nil] error. *)

Definition PostBuild (b : Build) (s : store) : store * option error :=
  match s !! ID b with
  | Some _ => (s, Some ErrAlreadyExists)
  | None => (<[ID b := b]> s, None)
  end.

(** [GetBuild] takes the read lock and writes nothing: it returns its two
    results and the map stays as it is. *)
Definition GetBuild (id : string) (s : store) : Build * option error :=
  match s !! id with
  | None => (zeroBuild, Some ErrNotFound)
  | Some b => (b, None)
  end.

Definition PutBuild (id : string) (b : Build) (s : store) : store * option error :=
  if decide (id ≠ ID b) then (s, Some ErrInconsistentIDs)
  else (<[id := b]> s, None).

(** [if b.Name != "" { existing.Name = b.Name }] on the copy [existing] of
    the stored record: the value [PatchBuild] writes back. *)
Definition patched (existing b : Build) : Build :=
  if decide (Name b ≠ "") then mkBuild (ID existing) (Name b) else existing.

Definition PatchBuild (id : string) (b : Build) (s : store) : store * option error :=
  if decide (ID b ≠ "" ∧ id ≠ ID b) then (s, Some ErrInconsistentIDs)
  else
    match s !! id with
    | None => (s, Some ErrNotFound)
    | Some existing => (<[id := patched existing b]> s, None)
    end.

Definition DeleteBuild (id : string) (s : store) : store * option error :=
  match s !! id with
  | None => (s, Some ErrNotFound)
  | Some _ => (delete id s, None)
  end.

(** ** Calls and call sequences *)

Inductive call :=
| Create (b : Build)
| Read (id : string)
| Replace (id : string) (b : Build)
| PartialUpdate (id : string) (b : Build)
| Delete (id : string).

(** One call: the map after it and the error it returned. *)
Definition exec (c : call) (s : store) : store * option error :=
  match c with
  | Create b => PostBuild b s
  | Read id => (s, snd (GetBuild id s))
  | Replace id b => PutBuild id b s
  | PartialUpdate id b => PatchBuild id b s
  | Delete id => DeleteBuild id s
  end.

(** The calls of [cs], first to last, from the map [s]. *)
Definition run (cs : list call) (s : store) : store :=
  foldl (λ acc c, fst (exec c acc)) s cs.

(** ** The invariant of the store *)

(** Every record is stored under its own [ID]. *)
Definition keys_match (s : store) : Prop :=
  map_Forall (λ k b, ID b = k) s.

(** The [ID]s of the stored records, in the order of [map_to_list]. *)
Definition stored_ids (s : store) : list string :=
  (ID ∘ snd) <$> map_to_list s.

(** No two stored records share an [ID]. *)
Definition unique_ids (s : store) : Prop := NoDup (stored_ids s).

Definition store_inv (s : store) : Prop := keys_match s ∧ unique_ids s.

#[global] Instance store_inv_dec s : Decision (store_inv s).
Proof. unfold store_inv, keys_match, unique_ids. apply _. Defined.

End BuildService.

(** * [PostBuild] under concurrent callers

    Each goroutine runs [PostBuild] on the shared [inmemService], one source
    statement per step; a scheduler picks which goroutine moves next.
    Nothing here assumes that a call is atomic: that is what the mutex has
    to provide. *)

Module Conc.
Import BuildService.

(** [sync.RWMutex], as far as its callers can tell: whether a writer holds
    it and how many readers do. *)
Record RWMutex := mkRWMutex { writer : bool; readers : nat }.

(** [mtx.Lock()] returns once no writer and no reader holds the mutex;
    [None] is a caller that has to wait. *)
Definition Lock (mu : RWMutex) : option RWMutex :=
  if writer mu then None
  else match readers mu with
       | 0 => Some (mkRWMutex true 0)
       | S _ => None
       end.

(** [mtx.Unlock()], called by the goroutine that holds the write lock. *)
Definition Unlock (mu : RWMutex) : RWMutex := mkRWMutex false (readers mu).

(** [type inmemService struct { mtx sync.RWMutex; m map[string]Build }] *)
Record inmemService := mkService { mtx : RWMutex; m : gmap string Build }.

(** [&inmemService{m: map[string]Build{}}]: the zero mutex is unlocked. *)
Definition NewInmemService : inmemService :=
  mkService (mkRWMutex false 0) BuildService.NewInmemService.

(** Where a goroutine stands in the body of [PostBuild]. *)
Inductive pc :=
| AtLock                       (* before [s.mtx.Lock()] *)
| AtCheck                      (* before [if _, ok := s.m[b.ID]; ok] *)
| AtStore                      (* before [s.m[b.ID] = b] *)
| AtReturn (e : option error)  (* result set; deferred [s.mtx.Unlock()] due *)
| Returned (e : option error). (* back in the caller with [e] *)

#[global] Instance pc_eq_dec : EqDecision pc.
Proof. solve_decision. Defined.

(** A goroutine in a call [s.PostBuild(ctx, arg)]. *)
Record goroutine := mkG { arg : Build; at_pc : pc }.

#[global] Instance goroutine_eq_dec : EqDecision goroutine.
Proof. solve_decision. Defined.

(** The next statement of [g]; [None] when [g] waits for the mutex or has
    returned. *)
Definition stmt (g : goroutine) (s : inmemService) : option (goroutine * inmemService) :=
  let b := arg g in
  match at_pc g with
  | AtLock =>
      mu ← Lock (mtx s); Some (mkG b AtCheck, mkService mu (m s))
  | AtCheck =>
      match m s !! ID b with
      | Some _ => Some (mkG b (AtReturn (Some ErrAlreadyExists)), s)
      | None => Some (mkG b AtStore, s)
      end
  | AtStore =>
      Some (mkG b (AtReturn None), mkService (mtx s) (<[ID b := b]> (m s)))
  | AtReturn e =>
      Some (mkG b (Returned e), mkService (Unlock (mtx s)) (m s))
  | Returned _ => None
  end.

(** [stmt] as a relation, one case per statement of [PostBuild]. *)
Inductive stmt_case (g : goroutine) (s : inmemService)
  : goroutine → inmemService → Prop :=
| case_lock :
    at_pc g = AtLock → writer (mtx s) = false → readers (mtx s) = 0 →
    stmt_case g s (mkG (arg g) AtCheck) (mkService (mkRWMutex true 0) (m s))
| case_check_taken old :
    at_pc g = AtCheck → m s !! ID (arg g) = Some old →
    stmt_case g s (mkG (arg g) (AtReturn (Some ErrAlreadyExists))) s
| case_check_free :
    at_pc g = AtCheck → m s !! ID (arg g) = None →
    stmt_case g s (mkG (arg g) AtStore) s
| case_store :
    at_pc g = AtStore →
    stmt_case g s (mkG (arg g) (AtReturn None))
              (mkService (mtx s) (<[ID (arg g) := arg g]> (m s)))
| case_unlock e :
    at_pc g = AtReturn e →
    stmt_case g s (mkG (arg g) (Returned e)) (mkService (Unlock (mtx s)) (m s)).

(** The goroutines and the service they share. *)
Abbreviation config := (list goroutine * inmemService)%type.

(** The scheduler lets goroutine [i] run one statement. *)
Definition fire (i : nat) (c : config) : option config :=
  g ← c.1 !! i;
  gs ← stmt g c.2;
  Some (<[i := gs.1]> c.1, gs.2).

(** A schedule: the goroutines to run, one statement each, in this order. *)
Fixpoint follow (sch : list nat) (c : config) : option config :=
  match sch with
  | [] => Some c
  | i :: sch' => c' ← fire i c; follow sch' c'
  end.

(** One goroutine per call, all about to start, on an unlocked service
    holding the map [m0]. *)
Definition spawn (bs : list Build) (m0 : gmap string Build) : config :=
  ((λ b, mkG b AtLock) <$> bs, mkService (mkRWMutex false 0) m0).

(** The error a goroutine has returned, once it has. *)
Definition result (g : goroutine) : option (option error) :=
  match at_pc g with
  | Returned e => Some e
  | _ => None
  end.

Definition all_returned (c : config) : Prop :=
  Forall (λ g, is_Some (result g)) c.1.

(** The goroutines that returned [e]. *)
Definition returned_with (e : option error) (c : config) : list goroutine :=
  filter (λ g, result g = Some e) c.1.

(** A sequential history: calls with the error each returned.  [replay]
    makes the calls one after the other from the map [s] and yields the
    final map when every call returns the error the history records. *)
Fixpoint replay (h : list (Build * option error)) (s : gmap string Build)
  : option (gmap string Build) :=
  match h with
  | [] => Some s
  | (b, e) :: h' =>
      let r := PostBuild b s in
      if decide (r.2 = e) then replay h' r.1 else None
  end.

(** The call of a goroutine and the error it returned. *)
Definition outcome (g : goroutine) : option (Build * option error) :=
  e ← result g; Some (arg g, e).

(** ** What the proofs keep track of *)

(** [g] is between [Lock] and [Unlock]. *)
Definition holding (g : goroutine) : bool :=
  match at_pc g with
  | AtCheck | AtStore | AtReturn _ => true
  | AtLock | Returned _ => false
  end.

(** How many statements [g] may still run. *)
Definition todo (g : goroutine) : nat :=
  match at_pc g with
  | AtLock => 4
  | AtCheck => 3
  | AtStore => 2
  | AtReturn _ => 1
  | Returned _ => 0
  end.

Definition work (gs : list goroutine) : nat := sum_list (todo <$> gs).

(** The call of [g] has taken effect: its result is decided and the map
    reflects it.  That is so from the failed check or the store onwards. *)
Definition effect (g : goroutine) : option (Build * option error) :=
  match at_pc g with
  | AtReturn e | Returned e => Some (arg g, e)
  | _ => None
  end.

(** What holds of every configuration the goroutines can reach from the
    map [m0]: the mutex is held by exactly the goroutines inside the
    critical section, of which there is at most one; a goroutine about to
    store has found its key free and it still is; and the map is what the
    calls that took effect produce when made one after the other in some
    order, each returning what its goroutine returns. *)
Record inv (m0 : gmap string Build) (c : config) : Prop := mkInv {
  inv_readers : readers (mtx c.2) = 0;
  inv_free : writer (mtx c.2) = false →
             ∀ i g, c.1 !! i = Some g → holding g = false;
  inv_held : writer (mtx c.2) = true →
             ∃ i g, c.1 !! i = Some g ∧ holding g = true;
  inv_excl : ∀ i j gi gj, c.1 !! i = Some gi → c.1 !! j = Some gj →
             holding gi = true → holding gj = true → i = j;
  inv_store : ∀ i g, c.1 !! i = Some g → at_pc g = AtStore →
              m c.2 !! ID (arg g) = None;
  inv_lin : ∃ h, h ≡ₚ omap effect c.1 ∧ replay h m0 = Some (m c.2)
}.

End Conc.

(** * More about calls

    What a call is aimed at, and what it hands back to its caller. *)

Module Calls.
Import BuildService.

(** The key a call reads or writes: [b.ID] for [PostBuild], the [id]
    argument for the four others. *)
Definition call_key (c : call) : string :=
  match c with
  | Create b => ID b
  | Read id | Replace id _ | PartialUpdate id _ | Delete id => id
  end.

(** The calls that assign to a key of the map whether or not it is there:
    [PostBuild] ([s.m[b.ID] = b]) and a [PutBuild] that passes its check
    ([s.m[id] = b]).  [PatchBuild] assigns only to a key it has found. *)
Definition may_add (k : string) (c : call) : Prop :=
  match c with
  | Create b => ID b = k
  | Replace id b => id = k ∧ ID b = id
  | Read _ | PartialUpdate _ _ | Delete _ => False
  end.

#[global] Instance may_add_dec k c : Decision (may_add k c).
Proof. destruct c; simpl; apply _. Defined.

(** The calls to [PatchBuild]. *)
Definition is_patch (c : call) : Prop :=
  match c with
  | PartialUpdate _ _ => True
  | _ => False
  end.

#[global] Instance is_patch_dec c : Decision (is_patch c).
Proof. destruct c; simpl; apply _. Defined.

(** What the caller gets back: the [Build] of [GetBuild] (no other method
    returns one) and the error. *)
Definition reply : Type := option Build * option error.

(** One call with all it returns: the map after it and the reply. *)
Definition serve (c : call) (s : gmap string Build) : gmap string Build * reply :=
  match c with
  | Read id => (s, (Some (GetBuild id s).1, (GetBuild id s).2))
  | _ => ((exec c s).1, (None, (exec c s).2))
  end.

End Calls.

(** * The five methods under concurrent callers

    As in [Conc], with every method: a caller is a goroutine inside one
    call, and moves one source statement at a time.  [GetBuild] takes the
    read lock; [PutBuild] and [PatchBuild] compare the [ID]s before they
    take the write lock. *)

Module Goroutines.
Import BuildService Conc Calls.

(** [mtx.RLock()] returns once no writer holds the mutex, next to any
    number of readers.  A [sync.RWMutex] also holds back new readers while
    a writer waits in [Lock].  That takes schedules away and adds none:
    every run of the program is a run here, so what is proved of all
    schedules holds of the program.  No theorem below concludes that a
    caller in the company of others can take a lock. *)
Definition RLock (mu : RWMutex) : option RWMutex :=
  if writer mu then None else Some (mkRWMutex false (S (readers mu))).

(** [mtx.RUnlock()], called by a goroutine that holds the read lock. *)
Definition RUnlock (mu : RWMutex) : RWMutex :=
  mkRWMutex (writer mu) (pred (readers mu)).

(** Where a caller stands in the body of its method. *)
Inductive pos :=
| Begin                      (* before the first statement *)
| ToLock                     (* the [ID]s compared, before [s.mtx.Lock()] *)
| Critical                   (* lock taken, before the map is read or written *)
| Clear                      (* [PostBuild]: no record found, before [s.m[b.ID] = b] *)
| Found (existing : Build)   (* [PatchBuild]: [existing] read, before [s.m[id] = existing] *)
| Present                    (* [DeleteBuild]: record found, before [delete(s.m, id)] *)
| ToUnlock (r : reply)       (* results set; the deferred unlock due *)
| Done (r : reply).          (* back in the caller with [r] *)

#[global] Instance pos_eq_dec : EqDecision pos.
Proof. solve_decision. Defined.

#[global] Instance call_eq_dec : EqDecision call.
Proof. solve_decision. Defined.

Record caller := mkCaller { req : call; at_pos : pos }.

#[global] Instance caller_eq_dec : EqDecision caller.
Proof. solve_decision. Defined.

(** The next statement of [g]; [None] when [g] waits for the mutex or has
    returned. *)
Definition next (g : caller) (s : inmemService) : option (caller * inmemService) :=
  let on p := mkCaller (req g) p in
  match req g, at_pos g with
  (* PostBuild *)
  | Create b, Begin =>
      mu ← Lock (mtx s); Some (on Critical, mkService mu (m s))
  | Create b, Critical =>
      match m s !! ID b with
      | Some _ => Some (on (ToUnlock (None, Some ErrAlreadyExists)), s)
      | None => Some (on Clear, s)
      end
  | Create b, Clear =>
      Some (on (ToUnlock (None, None)), mkService (mtx s) (<[ID b := b]> (m s)))
  (* GetBuild *)
  | Read id, Begin =>
      mu ← RLock (mtx s); Some (on Critical, mkService mu (m s))
  | Read id, Critical =>
      match m s !! id with
      | None => Some (on (ToUnlock (Some zeroBuild, Some ErrNotFound)), s)
      | Some b => Some (on (ToUnlock (Some b, None)), s)
      end
  | Read id, ToUnlock r =>
      Some (on (Done r), mkService (RUnlock (mtx s)) (m s))
  (* PutBuild *)
  | Replace id b, Begin =>
      if decide (id ≠ ID b) then Some (on (Done (None, Some ErrInconsistentIDs)), s)
      else Some (on ToLock, s)
  | Replace id b, ToLock =>
      mu ← Lock (mtx s); Some (on Critical, mkService mu (m s))
  | Replace id b, Critical =>
      Some (on (ToUnlock (None, None)), mkService (mtx s) (<[id := b]> (m s)))
  (* PatchBuild *)
  | PartialUpdate id b, Begin =>
      if decide (ID b ≠ "" ∧ id ≠ ID b)
      then Some (on (Done (None, Some ErrInconsistentIDs)), s)
      else Some (on ToLock, s)
  | PartialUpdate id b, ToLock =>
      mu ← Lock (mtx s); Some (on Critical, mkService mu (m s))
  | PartialUpdate id b, Critical =>
      match m s !! id with
      | None => Some (on (ToUnlock (None, Some ErrNotFound)), s)
      | Some existing => Some (on (Found existing), s)
      end
  | PartialUpdate id b, Found existing =>
      Some (on (ToUnlock (None, None)),
            mkService (mtx s) (<[id := patched existing b]> (m s)))
  (* DeleteBuild *)
  | Delete id, Begin =>
      mu ← Lock (mtx s); Some (on Critical, mkService mu (m s))
  | Delete id, Critical =>
      match m s !! id with
      | None => Some (on (ToUnlock (None, Some ErrNotFound)), s)
      | Some _ => Some (on Present, s)
      end
  | Delete id, Present =>
      Some (on (ToUnlock (None, None)), mkService (mtx s) (delete id (m s)))
  (* the deferred [s.mtx.Unlock()] of the four writers *)
  | (Create _ | Replace _ _ | PartialUpdate _ _ | Delete _), ToUnlock r =>
      Some (on (Done r), mkService (Unlock (mtx s)) (m s))
  | _, _ => None
  end.

(** The callers and the service they share. *)
Abbreviation system := (list caller * inmemService)%type.

(** The scheduler lets caller [i] run one statement. *)
Definition sched (i : nat) (c : system) : option system :=
  g ← c.1 !! i;
  gs ← next g c.2;
  Some (<[i := gs.1]> c.1, gs.2).

(** A schedule: the callers to run, one statement each, in this order. *)
Fixpoint play (sch : list nat) (c : system) : option system :=
  match sch with
  | [] => Some c
  | i :: sch' => c' ← sched i c; play sch' c'
  end.

(** One caller per call, all about to start, on an unlocked service
    holding the map [m0]. *)
Definition start (cs : list call) (m0 : gmap string Build) : system :=
  ((λ c, mkCaller c Begin) <$> cs, mkService (mkRWMutex false 0) m0).

(** What a caller has got back, once it has. *)
Definition answer (g : caller) : option reply :=
  match at_pos g with
  | Done r => Some r
  | _ => None
  end.

Definition all_done (c : system) : Prop :=
  Forall (λ g, is_Some (answer g)) c.1.

(** The call of a caller with what it got back. *)
Definition answered (g : caller) : option (call * reply) :=
  r ← answer g; Some (req g, r).

(** A sequential history: calls with their replies.  [replays] makes the
    calls one after the other from the map [s] and yields the final map
    when every call gets the reply the history records. *)
Fixpoint replays (h : list (call * reply)) (s : gmap string Build)
  : option (gmap string Build) :=
  match h with
  | [] => Some s
  | (c, r) :: h' =>
      let a := serve c s in
      if decide (a.2 = r) then replays h' a.1 else None
  end.

(** ** What the proofs keep track of *)

Definition is_read (c : call) : bool :=
  match c with
  | Read _ => true
  | _ => false
  end.

(** Between taking a lock and giving it back. *)
Definition inside (p : pos) : bool :=
  match p with
  | Critical | Clear | Found _ | Present | ToUnlock _ => true
  | Begin | ToLock | Done _ => false
  end.

(** [g] holds the write lock. *)
Definition wholding (g : caller) : bool := inside (at_pos g) && negb (is_read (req g)).

(** [g] holds the read lock. *)
Definition rholding (g : caller) : bool := inside (at_pos g) && is_read (req g).

(** The next statement of [g] assigns to [s.m] or deletes from it. *)
Definition writes_map (g : caller) : bool :=
  match req g, at_pos g with
  | Create _, Clear | Replace _ _, Critical
  | PartialUpdate _ _, Found _ | Delete _, Present => true
  | _, _ => false
  end.

(** The next statement of [g] reads [s.m]. *)
Definition reads_map (g : caller) : bool :=
  match req g, at_pos g with
  | (Create _ | Read _ | PartialUpdate _ _ | Delete _), Critical => true
  | _, _ => false
  end.

(** How many callers satisfy [f]. *)
Definition count (f : caller → bool) (gs : list caller) : nat :=
  sum_list ((λ g, Nat.b2n (f g)) <$> gs).

(** What a caller relies on when it goes on: the outcome of the checks
    it has made, on its arguments and on the map. *)
Definition good (g : caller) (mp : gmap string Build) : Prop :=
  match req g, at_pos g with
  | Create b, Clear => mp !! ID b = None
  | Replace id b, (ToLock | Critical) => id = ID b
  | PartialUpdate id b, (ToLock | Critical) => ¬ (ID b ≠ "" ∧ id ≠ ID b)
  | PartialUpdate id b, Found existing =>
      ¬ (ID b ≠ "" ∧ id ≠ ID b) ∧ mp !! id = Some existing
  | Delete id, Present => is_Some (mp !! id)
  | _, _ => True
  end.

(** The call of [g] has taken effect: its reply is decided and the map
    reflects it. *)
Definition settled (g : caller) : option (call * reply) :=
  match at_pos g with
  | ToUnlock r | Done r => Some (req g, r)
  | _ => None
  end.

(** What one statement does to the mutex: nothing, or one of [Lock],
    [RLock], [Unlock], [RUnlock], by a caller entitled to it. *)
Inductive lockstep (g g' : caller) (mu mu' : RWMutex) : Prop :=
| ls_stay :
    wholding g' = wholding g → rholding g' = rholding g → mu' = mu →
    lockstep g g' mu mu'
| ls_lock :
    wholding g = false → rholding g = false →
    wholding g' = true → rholding g' = false →
    writer mu = false → readers mu = 0 → mu' = mkRWMutex true 0 →
    lockstep g g' mu mu'
| ls_rlock :
    wholding g = false → rholding g = false →
    wholding g' = false → rholding g' = true →
    writer mu = false → mu' = mkRWMutex false (S (readers mu)) →
    lockstep g g' mu mu'
| ls_unlock :
    wholding g = true → rholding g = false →
    wholding g' = false → rholding g' = false →
    mu' = Unlock mu →
    lockstep g g' mu mu'
| ls_runlock :
    wholding g = false → rholding g = true →
    wholding g' = false → rholding g' = false →
    mu' = RUnlock mu →
    lockstep g g' mu mu'.

(** What one statement does to the map and to the standing of the call:
    nothing, or the call takes effect, as [serve] has it. *)
Definition takes_effect (g g' : caller) (mp mp' : gmap string Build) : Prop :=
  (settled g' = settled g ∧ mp' = mp) ∨
  (settled g = None ∧
   ∃ r, settled g' = Some (req g, r) ∧
        (good g mp → serve (req g) mp = (mp', r))).

(** The positions the body of each method has. *)
Definition fits (g : caller) : bool :=
  match req g, at_pos g with
  | _, (Begin | Done _) => true
  | Create _, (Critical | Clear | ToUnlock _) => true
  | Read _, (Critical | ToUnlock _) => true
  | Replace _ _, (ToLock | Critical | ToUnlock _) => true
  | PartialUpdate _ _, (ToLock | Critical | Found _ | ToUnlock _) => true
  | Delete _, (Critical | Present | ToUnlock _) => true
  | _, _ => false
  end.

(** How many statements [g] may still run. *)
Definition steps_left (g : caller) : nat :=
  match at_pos g with
  | Begin => 5
  | ToLock => 4
  | Critical => 3
  | Clear | Found _ | Present => 2
  | ToUnlock _ => 1
  | Done _ => 0
  end.

Definition load (gs : list caller) : nat := sum_list (steps_left <$> gs).

(** What holds of every system the callers can reach from the map [m0]:
    the fields of the mutex say who is inside, the callers that have
    looked at the map can rely on what they saw, and the map is what the
    calls that took effect produce when made one after the other in some
    order, each with the reply its caller gets. *)
Record sound (m0 : gmap string Build) (c : system) : Prop := mkSound {
  sound_readers : readers (mtx c.2) = count rholding c.1;
  sound_writer : Nat.b2n (writer (mtx c.2)) = count wholding c.1;
  sound_excl : writer (mtx c.2) = true → readers (mtx c.2) = 0;
  sound_good : ∀ i g, c.1 !! i = Some g → good g (m c.2);
  sound_lin : ∃ h, h ≡ₚ omap settled c.1 ∧ replays h m0 = Some (m c.2)
}.

End Goroutines.

(** * Properties of the sequential methods *)

Module BuildServiceProofs.
Import BuildService.

Implicit Types (s : gmap string Build) (b : Build) (id k : string).

(** ** What each method does to the map *)

Lemma PostBuild_fresh b s :
  s !! ID b = None → PostBuild b s = (<[ID b := b]> s, None).
Proof. intros Hs. unfold PostBuild. by rewrite Hs. Qed.

Lemma PostBuild_taken b s :
  is_Some (s !! ID b) → PostBuild b s = (s, Some ErrAlreadyExists).
Proof. intros [old Hs]. unfold PostBuild. by rewrite Hs. Qed.

Lemma GetBuild_Some id b s : s !! id = Some b → GetBuild id s = (b, None).
Proof. intros Hs. unfold GetBuild. by rewrite Hs. Qed.

Lemma GetBuild_None id s :
  s !! id = None → GetBuild id s = (zeroBuild, Some ErrNotFound).
Proof. intros Hs. unfold GetBuild. by rewrite Hs. Qed.

Lemma PutBuild_same id b s : id = ID b → PutBuild id b s = (<[id := b]> s, None).
Proof. intros Hid. unfold PutBuild. by rewrite decide_False by auto. Qed.

Lemma PutBuild_differ id b s :
  id ≠ ID b → PutBuild id b s = (s, Some ErrInconsistentIDs).
Proof. intros Hid. unfold PutBuild. by rewrite decide_True. Qed.

Lemma PatchBuild_rejected id b s :
  ID b ≠ "" → id ≠ ID b → PatchBuild id b s = (s, Some ErrInconsistentIDs).
Proof. intros H1 H2. unfold PatchBuild. by rewrite decide_True. Qed.

Lemma PatchBuild_checked id b s :
  ID b = "" ∨ id = ID b →
  PatchBuild id b s =
    match s !! id with
    | None => (s, Some ErrNotFound)
    | Some existing => (<[id := patched existing b]> s, None)
    end.
Proof.
  intros Hok. unfold PatchBuild. rewrite decide_False; [done|].
  intros [H1 H2]. by destruct Hok.
Qed.

Lemma patched_ID existing b : ID (patched existing b) = ID existing.
Proof. unfold patched. by case_decide. Qed.

Lemma DeleteBuild_Some id b s :
  s !! id = Some b → DeleteBuild id s = (delete id s, None).
Proof. intros Hs. unfold DeleteBuild. by rewrite Hs. Qed.

Lemma DeleteBuild_None id s :
  s !! id = None → DeleteBuild id s = (s, Some ErrNotFound).
Proof. intros Hs. unfold DeleteBuild. by rewrite Hs. Qed.

(** A call that returns an error hands the map back as it got it. *)
Lemma PostBuild_error b s e : (PostBuild b s).2 = Some e → (PostBuild b s).1 = s.
Proof. unfold PostBuild. by destruct (s !! ID b). Qed.

Lemma PutBuild_error id b s e :
  (PutBuild id b s).2 = Some e → (PutBuild id b s).1 = s.
Proof. unfold PutBuild. by case_decide. Qed.

Lemma PatchBuild_error id b s e :
  (PatchBuild id b s).2 = Some e → (PatchBuild id b s).1 = s.
Proof. unfold PatchBuild. case_decide; [done|]. by destruct (s !! id). Qed.

Lemma DeleteBuild_error id s e :
  (DeleteBuild id s).2 = Some e → (DeleteBuild id s).1 = s.
Proof. unfold DeleteBuild. by destruct (s !! id). Qed.

(** ** The invariant *)

(** With every record under its own [ID], the stored [ID]s are the keys. *)
Lemma keys_match_stored_ids s : keys_match s → stored_ids s = (map_to_list s).*1.
Proof.
  intros Hk. unfold stored_ids. apply list_fmap_ext.
  intros i [k b] Hi. simpl. apply (Hk k b).
  apply elem_of_map_to_list. eapply list_elem_of_lookup_2. exact Hi.
Qed.

Lemma keys_match_unique_ids s : keys_match s → unique_ids s.
Proof.
  intros Hk. unfold unique_ids. rewrite keys_match_stored_ids by done.
  apply NoDup_fst_map_to_list.
Qed.

(** [unique_ids] read record by record. *)
Lemma unique_ids_lookup s k1 k2 b1 b2 :
  unique_ids s → s !! k1 = Some b1 → s !! k2 = Some b2 →
  ID b1 = ID b2 → k1 = k2.
Proof.
  unfold unique_ids, stored_ids. intros Hnd H1 H2 Hid.
  apply elem_of_map_to_list, list_elem_of_lookup in H1 as [i Hi].
  apply elem_of_map_to_list, list_elem_of_lookup in H2 as [j Hj].
  assert (i = j) as ->.
  { eapply NoDup_lookup; [exact Hnd| |].
    - rewrite list_lookup_fmap, Hi. reflexivity.
    - rewrite list_lookup_fmap, Hj. simpl. by rewrite Hid. }
  congruence.
Qed.

Lemma keys_match_empty : keys_match NewInmemService.
Proof. apply map_Forall_empty. Qed.

Lemma keys_match_insert id b s : keys_match s → ID b = id → keys_match (<[id := b]> s).
Proof. intros Hk Hid. by apply map_Forall_insert_2. Qed.

Lemma keys_match_delete id s : keys_match s → keys_match (delete id s).
Proof. intros Hk. by apply map_Forall_delete. Qed.

Lemma keys_match_exec c s : keys_match s → keys_match (exec c s).1.
Proof.
  intros Hk. destruct c as [b|id|id b|id b|id]; simpl.
  - unfold PostBuild. destruct (s !! ID b); simpl; [done|].
    by apply keys_match_insert.
  - done.
  - unfold PutBuild. case_decide as Hd; simpl; [done|].
    apply keys_match_insert; [done|]. by destruct (decide (id = ID b)).
  - unfold PatchBuild. case_decide; simpl; [done|].
    destruct (s !! id) as [existing|] eqn:Hs; simpl; [|done].
    apply keys_match_insert; [done|].
    rewrite patched_ID. by apply (Hk id).
  - unfold DeleteBuild. destruct (s !! id); simpl; [|done].
    by apply keys_match_delete.
Qed.

Lemma store_inv_exec c s : store_inv s → store_inv (exec c s).1.
Proof.
  intros [Hk _]. apply (keys_match_exec c) in Hk.
  split; [done|]. by apply keys_match_unique_ids.
Qed.

Lemma store_inv_run cs s : store_inv s → store_inv (run cs s).
Proof.
  revert s. induction cs as [|c cs IH]; intros s Hs; simpl; [done|].
  apply IH. by apply store_inv_exec.
Qed.

(** ** The store invariant *)

(** C1. In every state reached from the empty store by a sequence of
    Create, Read, Replace, PartialUpdate and Delete calls, every record is
    stored under the key equal to its [ID] and no two stored records share an
    [ID]; and each single call, made on any store where the invariant
    holds, leaves a store where it holds. *)
Theorem store_invariant :
  (∀ cs : list call,
     store_inv (run cs NewInmemService) ∧
     (∀ k b, run cs NewInmemService !! k = Some b → ID b = k) ∧
     (∀ k1 k2 b1 b2,
        run cs NewInmemService !! k1 = Some b1 →
        run cs NewInmemService !! k2 = Some b2 →
        k1 ≠ k2 → ID b1 ≠ ID b2)) ∧
  (∀ (c : call) s, store_inv s → store_inv (exec c s).1).
Proof.
  split; [|apply store_inv_exec].
  intros cs.
  assert (store_inv (run cs NewInmemService)) as Hinv.
  { apply store_inv_run. split; [apply keys_match_empty|].
    apply keys_match_unique_ids, keys_match_empty. }
  split; [exact Hinv|]. destruct Hinv as [Hk Hu]. split.
  - intros k b Hkb. by apply (Hk k b).
  - intros k1 k2 b1 b2 H1 H2 Hne Hid. apply Hne.
    by eapply unique_ids_lookup.
Qed.

Lemma store_invariant_witness :
  store_inv (<["x" := mkBuild "x" "old"]> NewInmemService) ∧
  store_inv
    (exec (PartialUpdate "x" (mkBuild "" "new"))
          (<["x" := mkBuild "x" "old"]> NewInmemService)).1.
Proof.
  assert (store_inv (<["x" := mkBuild "x" "old"]> NewInmemService)) as Hs.
  { apply (bool_decide_unpack _). vm_compute. exact I. }
  split; [exact Hs|].
  exact (proj2 store_invariant _ _ Hs).
Defined.

(** ** Create *)

(** C2. When no record is stored under [b.ID], Create(b) returns no error
    and Read(b.ID) on the resulting store returns [b] and no error. *)
Theorem create_then_read b s :
  s !! ID b = None →
  (PostBuild b s).2 = None ∧
  GetBuild (ID b) (PostBuild b s).1 = (b, None).
Proof.
  intros Hfresh. rewrite PostBuild_fresh by done. simpl. split; [done|].
  apply GetBuild_Some, lookup_insert_eq.
Qed.

Lemma create_then_read_witness :
  (NewInmemService : gmap string Build) !! ID (mkBuild "b1" "first") = None ∧
  (PostBuild (mkBuild "b1" "first") NewInmemService).2 = None ∧
  GetBuild "b1" (PostBuild (mkBuild "b1" "first") NewInmemService).1
    = (mkBuild "b1" "first", None).
Proof.
  split; [reflexivity|].
  apply (create_then_read (mkBuild "b1" "first") NewInmemService).
  reflexivity.
Defined.

(** C3. When a record [old] is already stored under [b.ID], Create(b)
    returns [ErrAlreadyExists], the record under [b.ID] is still [old], and
    the whole map is the one the call started from. *)
Theorem create_existing b s old :
  s !! ID b = Some old →
  (PostBuild b s).2 = Some ErrAlreadyExists ∧
  (PostBuild b s).1 !! ID b = Some old ∧
  (PostBuild b s).1 = s.
Proof.
  intros Hold. rewrite PostBuild_taken by (by exists old). by simpl.
Qed.

Lemma create_existing_witness :
  (PostBuild (mkBuild "b1" "first") NewInmemService).1 !! "b1"
    = Some (mkBuild "b1" "first") ∧
  (PostBuild (mkBuild "b1" "second")
     (PostBuild (mkBuild "b1" "first") NewInmemService).1).2
    = Some ErrAlreadyExists ∧
  (PostBuild (mkBuild "b1" "second")
     (PostBuild (mkBuild "b1" "first") NewInmemService).1).1 !! "b1"
    = Some (mkBuild "b1" "first").
Proof.
  assert ((PostBuild (mkBuild "b1" "first") NewInmemService).1
            !! ID (mkBuild "b1" "second")
          = Some (mkBuild "b1" "first")) as Hfirst by reflexivity.
  split; [exact Hfirst|].
  destruct (create_existing (mkBuild "b1" "second") _ _ Hfirst) as (He & Hl & _).
  split; [exact He|exact Hl].
Defined.

(** C10. Create does not look at whether the [ID] is empty: when no record
    is stored under the empty key, Create of a build whose [ID] is the empty
    string returns no error, stores the build under the empty key, and
    Read of the empty key returns it. *)
Theorem create_empty_id name s :
  s !! "" = None →
  PostBuild (mkBuild "" name) s = (<["" := mkBuild "" name]> s, None) ∧
  GetBuild "" (PostBuild (mkBuild "" name) s).1 = (mkBuild "" name, None).
Proof.
  intros Hfresh.
  rewrite (PostBuild_fresh (mkBuild "" name)) by done. simpl.
  split; [done|]. apply GetBuild_Some, lookup_insert_eq.
Qed.

Lemma create_empty_id_witness :
  (NewInmemService : gmap string Build) !! "" = None ∧
  PostBuild (mkBuild "" "anonymous") NewInmemService
    = (<["" := mkBuild "" "anonymous"]> NewInmemService, None) ∧
  GetBuild "" (PostBuild (mkBuild "" "anonymous") NewInmemService).1
    = (mkBuild "" "anonymous", None).
Proof.
  split; [reflexivity|].
  apply (create_empty_id "anonymous" NewInmemService). reflexivity.
Defined.

(** ** Replace *)

(** C4. Replace(id, b) returns [ErrInconsistentIDs] exactly when [b.ID]
    differs from [id]; when they are equal it returns no error on every
    store, with or without a record under [id], and Read(id) on the
    resulting store returns [b]. *)
Theorem replace_spec id b s :
  ((PutBuild id b s).2 = Some ErrInconsistentIDs ↔ ID b ≠ id) ∧
  (ID b = id →
     (PutBuild id b s).2 = None ∧
     GetBuild id (PutBuild id b s).1 = (b, None)).
Proof.
  split.
  - destruct (decide (id = ID b)) as [Heq|Hne].
    + rewrite PutBuild_same by done. simpl. split; [done|]. intros Hne. by destruct Hne.
    + rewrite PutBuild_differ by done. simpl. split; [|done]. intros _ Heq. by destruct Hne.
  - intros Heq. rewrite PutBuild_same by done. simpl. split; [done|].
    apply GetBuild_Some, lookup_insert_eq.
Qed.

Lemma replace_spec_witness :
  (PutBuild "x" (mkBuild "x" "new") NewInmemService).2 = None ∧
  GetBuild "x" (PutBuild "x" (mkBuild "x" "new") NewInmemService).1
    = (mkBuild "x" "new", None).
Proof.
  apply (proj2 (replace_spec "x" (mkBuild "x" "new") NewInmemService)).
  reflexivity.
Defined.

(** ** PartialUpdate *)

(** C5. PartialUpdate(id, b) makes its two checks in the order in which
    the method lists them.  It fails with [ErrInconsistentIDs] when [b.ID]
    is non-empty and differs from [id]; past that check it fails with
    [ErrNotFound] when no record is stored under [id]; and it never
    creates a record: after a failing call a key that was absent before
    the call is still absent (as it is after a call that succeeds). *)
Theorem patch_errors id b s :
  (ID b ≠ "" → ID b ≠ id → PatchBuild id b s = (s, Some ErrInconsistentIDs)) ∧
  (ID b = "" ∨ ID b = id → s !! id = None →
     PatchBuild id b s = (s, Some ErrNotFound)) ∧
  (∀ k e, (PatchBuild id b s).2 = Some e → s !! k = None →
          (PatchBuild id b s).1 !! k = None) ∧
  (∀ k, s !! k = None → (PatchBuild id b s).1 !! k = None).
Proof.
  assert (∀ k, s !! k = None → (PatchBuild id b s).1 !! k = None) as Hnever.
  { intros k Hk. unfold PatchBuild. case_decide; [done|].
    destruct (s !! id) as [existing|] eqn:Hs; simpl; [|done].
    rewrite lookup_insert_ne; [done|]. intros ->. congruence. }
  split; [|split; [|split]].
  - intros H1 H2. by apply PatchBuild_rejected.
  - intros Hok Hs. rewrite PatchBuild_checked by (destruct Hok; auto).
    by rewrite Hs.
  - intros k e _. apply Hnever.
  - exact Hnever.
Qed.

Lemma patch_errors_witness :
  PatchBuild "x" (mkBuild "" "new") NewInmemService
    = (NewInmemService, Some ErrNotFound).
Proof.
  apply (proj1 (proj2 (patch_errors "x" (mkBuild "" "new") NewInmemService))).
  - left. reflexivity.
  - reflexivity.
Defined.

(** The [ID]s are compared before the map is read.  On the empty store a
    patch for ["a"] that carries the [ID] ["b"] fails the first check, and
    the call returns [ErrInconsistentIDs] without looking for a record. *)
Lemma patch_mismatch_before_lookup :
  (NewInmemService : gmap string Build) !! "a" = None ∧
  PatchBuild "a" (mkBuild "b" "n") NewInmemService
    = (NewInmemService, Some ErrInconsistentIDs) ∧
  (PatchBuild "a" (mkBuild "b" "n") NewInmemService).2 ≠ Some ErrNotFound.
Proof. split; [reflexivity|]. split; [reflexivity|]. discriminate. Qed.

(** C6. When [existing] is stored under [id] and PartialUpdate(id, b)
    returns no error: a non-empty [b.Name] becomes the [Name] of the stored
    record; with an empty [b.Name] the map is left exactly as it was; in
    both cases the record under [id] keeps the [ID] it had, and every other
    key keeps its record. *)
Theorem patch_accepted id b s existing :
  s !! id = Some existing →
  (PatchBuild id b s).2 = None →
  (Name b ≠ "" →
     (PatchBuild id b s).1 !! id = Some (mkBuild (ID existing) (Name b))) ∧
  (Name b = "" → (PatchBuild id b s).1 = s) ∧
  (∃ r, (PatchBuild id b s).1 !! id = Some r ∧ ID r = ID existing) ∧
  (∀ k, k ≠ id → (PatchBuild id b s).1 !! k = s !! k).
Proof.
  intros Hs. unfold PatchBuild. case_decide; [done|]. rewrite Hs. simpl.
  intros _. repeat split.
  - intros Hname. rewrite lookup_insert_eq. unfold patched. by rewrite decide_True.
  - intros Hname. unfold patched. rewrite decide_False by auto.
    by apply insert_id.
  - exists (patched existing b). rewrite lookup_insert_eq. split; [done|].
    apply patched_ID.
  - intros k Hk. by rewrite lookup_insert_ne.
Qed.

Lemma patch_accepted_witness :
  (<["x" := mkBuild "x" "old"]> NewInmemService) !! "x" = Some (mkBuild "x" "old") ∧
  (PatchBuild "x" (mkBuild "x" "new") (<["x" := mkBuild "x" "old"]> NewInmemService)).2
    = None ∧
  (PatchBuild "x" (mkBuild "x" "new") (<["x" := mkBuild "x" "old"]> NewInmemService)).1
    !! "x" = Some (mkBuild "x" "new").
Proof.
  assert ((<["x" := mkBuild "x" "old"]> NewInmemService) !! "x"
          = Some (mkBuild "x" "old")) as Hs by reflexivity.
  assert ((PatchBuild "x" (mkBuild "x" "new")
             (<["x" := mkBuild "x" "old"]> NewInmemService)).2 = None)
    as Hok by reflexivity.
  split; [exact Hs|]. split; [exact Hok|].
  apply (proj1 (patch_accepted "x" (mkBuild "x" "new") _ _ Hs Hok)).
  discriminate.
Defined.

(** The two examples of the specification, on the store that holds
    [{ID: "x", Name: "old"}] only. *)
Example patch_example_new :
  PatchBuild "x" (mkBuild "x" "new") (<["x" := mkBuild "x" "old"]> NewInmemService)
  = (<["x" := mkBuild "x" "new"]> NewInmemService, None).
Proof. by vm_compute. Qed.

Example patch_example_empty :
  PatchBuild "x" (mkBuild "" "") (<["x" := mkBuild "x" "old"]> NewInmemService)
  = (<["x" := mkBuild "x" "old"]> NewInmemService, None).
Proof. by vm_compute. Qed.

(** ** Delete *)

(** C7. When a record is stored under [id], Delete(id) returns no error
    and Read(id) on the resulting store returns [ErrNotFound]; when none
    is, Delete(id) returns [ErrNotFound] and the map is the one the call
    started from. *)
Theorem delete_spec id s :
  (is_Some (s !! id) →
     (DeleteBuild id s).2 = None ∧
     GetBuild id (DeleteBuild id s).1 = (zeroBuild, Some ErrNotFound)) ∧
  (s !! id = None → DeleteBuild id s = (s, Some ErrNotFound)).
Proof.
  split.
  - intros [b Hs]. rewrite (DeleteBuild_Some id b) by done. simpl.
    split; [done|]. apply GetBuild_None, lookup_delete_eq.
  - apply DeleteBuild_None.
Qed.

Lemma delete_spec_witness :
  ((DeleteBuild "x" (<["x" := mkBuild "x" "old"]> NewInmemService)).2 = None ∧
   GetBuild "x" (DeleteBuild "x" (<["x" := mkBuild "x" "old"]> NewInmemService)).1
     = (zeroBuild, Some ErrNotFound)) ∧
  DeleteBuild "x" NewInmemService = (NewInmemService, Some ErrNotFound).
Proof.
  split.
  - apply (proj1 (delete_spec "x" (<["x" := mkBuild "x" "old"]> NewInmemService))).
    exists (mkBuild "x" "old"). reflexivity.
  - apply (proj2 (delete_spec "x" NewInmemService)). reflexivity.
Defined.

(** ** Errors *)

(** C8. Whenever one of the five operations returns an error, which is
    then [ErrAlreadyExists], [ErrNotFound] or [ErrInconsistentIDs], the map
    after the call is the map before it. *)
Theorem error_leaves_store (c : call) s e :
  (exec c s).2 = Some e →
  (exec c s).1 = s ∧
  (e = ErrAlreadyExists ∨ e = ErrNotFound ∨ e = ErrInconsistentIDs).
Proof.
  intros He. split.
  - destruct c as [b|id|id b|id b|id]; simpl in *.
    + by eapply PostBuild_error.
    + done.
    + by eapply PutBuild_error.
    + by eapply PatchBuild_error.
    + by eapply DeleteBuild_error.
  - destruct e; auto.
Qed.

Lemma error_leaves_store_witness :
  (exec (Replace "x" (mkBuild "y" "new"))
        (<["x" := mkBuild "x" "old"]> NewInmemService)).2
    = Some ErrInconsistentIDs ∧
  (exec (Replace "x" (mkBuild "y" "new"))
        (<["x" := mkBuild "x" "old"]> NewInmemService)).1
    = <["x" := mkBuild "x" "old"]> NewInmemService.
Proof.
  split; [reflexivity|].
  apply (error_leaves_store (Replace "x" (mkBuild "y" "new"))
           (<["x" := mkBuild "x" "old"]> NewInmemService) ErrInconsistentIDs).
  reflexivity.
Defined.

End BuildServiceProofs.

(** * Properties of concurrent [PostBuild] calls *)

Module ConcProofs.
Import BuildService BuildServiceProofs Conc.

Implicit Types (gs : list goroutine) (g : goroutine) (h : list (Build * option error)).

(** ** Replacing one element of a list *)

Section list_insert.
Context {A B : Type}.
Implicit Types (l : list A) (f : A → option B).

Lemma omap_insert_same f l i x y :
  l !! i = Some x → f y = f x → omap f (<[i := y]> l) = omap f l.
Proof.
  revert i. induction l as [|a l IH]; intros [|i] Hi Hf; simplify_eq/=; try done.
  - by rewrite Hf.
  - by rewrite (IH i).
Qed.

Lemma omap_insert_new f l i x y z :
  l !! i = Some x → f x = None → f y = Some z →
  omap f (<[i := y]> l) ≡ₚ z :: omap f l.
Proof.
  revert i. induction l as [|a l IH]; intros [|i] Hi Hx Hy; simplify_eq/=.
  - by rewrite Hx, Hy.
  - destruct (f a) as [fa|]; [|by apply (IH i)].
    rewrite (IH i) by done. apply Permutation_swap.
Qed.

Lemma sum_list_insert (g : A → nat) l i x y :
  l !! i = Some x →
  sum_list (g <$> <[i := y]> l) + g x = sum_list (g <$> l) + g y.
Proof.
  revert i. induction l as [|a l IH]; intros [|i] Hi; simplify_eq/=; [lia|].
  specialize (IH i Hi). lia.
Qed.
End list_insert.

Lemma lookup_insert_cases {A} (l : list A) i j y z :
  <[i := y]> l !! j = Some z → (j = i ∧ z = y) ∨ (j ≠ i ∧ l !! j = Some z).
Proof.
  intros [(-> & -> & _)|[Hne Hj]]%list_lookup_insert_Some; [by left|by right].
Qed.

(** ** Sequential histories *)

Lemma replay_app h1 h2 s :
  replay (h1 ++ h2) s = replay h1 s ≫= replay h2.
Proof.
  revert s. induction h1 as [|[b e] h1 IH]; intros s; simpl; [done|].
  case_decide; [apply IH|done].
Qed.

(** One more call at the end of a history that [replay] accepts. *)
Lemma replay_snoc h s0 s b :
  replay h s0 = Some s →
  replay (h ++ [(b, (PostBuild b s).2)]) s0 = Some (PostBuild b s).1.
Proof.
  intros Hh. rewrite replay_app, Hh. simpl. by rewrite decide_True.
Qed.

(** [PostBuild] never overwrites, so a history keeps what is stored. *)
Lemma replay_keeps h s s' k v :
  replay h s = Some s' → s !! k = Some v → s' !! k = Some v.
Proof.
  revert s. induction h as [|[b e] h IH]; intros s Hh Hk; simplify_eq/=; [done|].
  case_decide; [|done]. apply (IH _ Hh). unfold PostBuild.
  destruct (s !! ID b) eqn:Hb; simpl; [done|].
  rewrite lookup_insert_ne; [done|]. congruence.
Qed.

(** ** One statement *)

Lemma fire_Some i c c' :
  fire i c = Some c' →
  ∃ g g' s', c.1 !! i = Some g ∧ stmt g c.2 = Some (g', s') ∧
             c' = (<[i := g']> c.1, s').
Proof.
  unfold fire. intros Hf.
  destruct (c.1 !! i) as [g|] eqn:Hg; simpl in Hf; [|done].
  destruct (stmt g c.2) as [[g' s']|] eqn:Hs; simpl in Hf; [|done].
  exists g, g', s'. by simplify_eq.
Qed.

Lemma stmt_Some g s g' s' : stmt g s = Some (g', s') → stmt_case g s g' s'.
Proof.
  unfold stmt. destruct (at_pc g) as [| | |e|e] eqn:Hpc; intros Hs.
  - unfold Lock in Hs. destruct (writer (mtx s)) eqn:Hw; [done|].
    destruct (readers (mtx s)) eqn:Hr; [|done]. simplify_eq/=.
    by apply case_lock.
  - destruct (m s !! ID (arg g)) as [old|] eqn:Hm; simplify_eq.
    + by eapply case_check_taken.
    + by apply case_check_free.
  - simplify_eq. by apply case_store.
  - simplify_eq. by apply case_unlock.
  - done.
Qed.

Lemma stmt_case_arg g s g' s' : stmt_case g s g' s' → arg g' = arg g.
Proof. by intros []. Qed.

Lemma stmt_case_todo g s g' s' : stmt_case g s g' s' → todo g' < todo g.
Proof. intros [] ; unfold todo; simpl; rewrite ?H; lia. Qed.

(** ** The invariant *)

Lemma inv_spawn bs m0 : inv m0 (spawn bs m0).
Proof.
  unfold spawn. split; simpl; try done.
  - intros _ i g [b [-> _]]%list_lookup_fmap_Some. done.
  - intros i j gi gj [b [-> _]]%list_lookup_fmap_Some. done.
  - intros i g [b [-> _]]%list_lookup_fmap_Some. done.
  - exists []. split; [|done].
    induction bs as [|b bs IH]; simpl; done.
Qed.

Section step.
Context (m0 : gmap string Build) (gs : list goroutine) (s : inmemService).
Context (i : nat) (g : goroutine).
Hypothesis Hinv : inv m0 (gs, s).
Hypothesis Hg : gs !! i = Some g.

(** The one goroutine in the critical section is the only one. *)
Lemma holder_alone j gj :
  holding g = true → gs !! j = Some gj → j ≠ i → holding gj = false.
Proof.
  intros Hh Hj Hne. destruct (holding gj) eqn:Hhj; [|done].
  destruct Hne. by apply (inv_excl _ _ Hinv j i gj g).
Qed.

Lemma holder_locked : holding g = true → writer (mtx s) = true.
Proof.
  intros Hh. destruct (writer (mtx s)) eqn:Hw; [done|].
  pose proof (inv_free _ _ Hinv Hw i g Hg) as Hf. congruence.
Qed.

(** A statement inside the critical section that stays inside it. *)
Lemma inv_inside g' s' :
  mtx s' = mtx s →
  holding g = true → holding g' = true →
  (at_pc g' = AtStore → m s' !! ID (arg g') = None) →
  (∀ j gj, gs !! j = Some gj → j ≠ i → at_pc gj = AtStore →
           m s' !! ID (arg gj) = None) →
  (∃ h, h ≡ₚ omap effect (<[i := g']> gs) ∧ replay h m0 = Some (m s')) →
  inv m0 (<[i := g']> gs, s').
Proof.
  intros Hmtx Hh Hh' Hst Hothers Hlin. split; simpl; rewrite ?Hmtx.
  - apply (inv_readers _ _ Hinv).
  - intros Hw. pose proof holder_locked Hh. congruence.
  - intros _. exists i, g'. split; [|done].
    apply list_lookup_insert_eq. by eapply lookup_lt_Some.
  - intros j1 j2 g1 g2 H1 H2 Hh1 Hh2.
    apply lookup_insert_cases in H1 as [[-> ->]|[Hn1 H1]];
      apply lookup_insert_cases in H2 as [[-> ->]|[Hn2 H2]]; try done.
    + pose proof (holder_alone j2 g2 Hh H2 Hn2). congruence.
    + pose proof (holder_alone j1 g1 Hh H1 Hn1). congruence.
    + pose proof (holder_alone j1 g1 Hh H1 Hn1). congruence.
  - intros j gj [[-> ->]|[Hn Hj]]%lookup_insert_cases Hpc; [by apply Hst|].
    by apply (Hothers j gj).
  - done.
Qed.

Lemma inv_stmt g' s' : stmt_case g s g' s' → inv m0 (<[i := g']> gs, s').
Proof.
  destruct (inv_lin _ _ Hinv) as (h & Hperm & Hreplay). simpl in *.
  intros [Hpc Hw Hr|old Hpc Hm|Hpc Hm|Hpc|e Hpc].
  - (* Lock *)
    split; simpl; try done.
    + intros _. exists i, (mkG (arg g) AtCheck). split; [|done].
      apply list_lookup_insert_eq. by eapply lookup_lt_Some.
    + intros j1 j2 g1 g2 H1 H2 Hh1 Hh2.
      apply lookup_insert_cases in H1 as [[-> ->]|[Hn1 H1]];
        apply lookup_insert_cases in H2 as [[-> ->]|[Hn2 H2]]; try done.
      * pose proof (inv_free _ _ Hinv Hw j2 g2 H2). congruence.
      * pose proof (inv_free _ _ Hinv Hw j1 g1 H1). congruence.
      * pose proof (inv_free _ _ Hinv Hw j1 g1 H1). congruence.
    + intros j gj [[-> ->]|[Hn Hj]]%lookup_insert_cases Hpcj; [done|].
      by apply (inv_store _ _ Hinv j gj).
    + exists h. split; [|done]. rewrite Hperm.
      erewrite omap_insert_same; [done|exact Hg|].
      unfold effect. simpl. by rewrite Hpc.
  - (* the check finds a record *)
    apply inv_inside; simpl; try done.
    + unfold holding. by rewrite Hpc.
    + intros j gj Hj Hn. by apply (inv_store _ _ Hinv j gj).
    + exists (h ++ [(arg g, Some ErrAlreadyExists)]). split.
      * rewrite (omap_insert_new effect gs i g _ (arg g, Some ErrAlreadyExists));
          [|done|unfold effect; by rewrite Hpc|done].
        rewrite Hperm. symmetry. apply Permutation_cons_append.
      * pose proof (replay_snoc h m0 (m s) (arg g) Hreplay) as Hsn.
        rewrite PostBuild_taken in Hsn by (by exists old). exact Hsn.
  - (* the check finds none *)
    apply inv_inside; simpl; try done.
    + unfold holding. by rewrite Hpc.
    + intros j gj Hj Hn. by apply (inv_store _ _ Hinv j gj).
    + exists h. split; [|done]. rewrite Hperm.
      erewrite omap_insert_same; [done|exact Hg|].
      unfold effect. simpl. by rewrite Hpc.
  - (* the store *)
    assert (holding g = true) as Hh by (unfold holding; by rewrite Hpc).
    pose proof (inv_store _ _ Hinv i g Hg Hpc) as Hfree. simpl in Hfree.
    apply inv_inside; simpl; try done.
    + intros j gj Hj Hn Hpcj.
      pose proof (holder_alone j gj Hh Hj Hn) as Hnh.
      unfold holding in Hnh. by rewrite Hpcj in Hnh.
    + exists (h ++ [(arg g, None)]). split.
      * rewrite (omap_insert_new effect gs i g _ (arg g, None));
          [|done|unfold effect; by rewrite Hpc|done].
        rewrite Hperm. symmetry. apply Permutation_cons_append.
      * pose proof (replay_snoc h m0 (m s) (arg g) Hreplay) as Hsn.
        rewrite PostBuild_fresh in Hsn by done. exact Hsn.
  - (* Unlock *)
    assert (holding g = true) as Hh by (unfold holding; by rewrite Hpc).
    split; simpl; try done.
    + apply (inv_readers _ _ Hinv).
    + intros _ j gj [[-> ->]|[Hn Hj]]%lookup_insert_cases; [done|].
      by apply (holder_alone j gj).
    + intros j1 j2 g1 g2 H1 H2 Hh1 Hh2.
      apply lookup_insert_cases in H1 as [[-> ->]|[Hn1 H1]]; [done|].
      pose proof (holder_alone j1 g1 Hh H1 Hn1). congruence.
    + intros j gj [[-> ->]|[Hn Hj]]%lookup_insert_cases Hpcj; [done|].
      by apply (inv_store _ _ Hinv j gj).
    + exists h. split; [|done]. rewrite Hperm.
      erewrite omap_insert_same; [done|exact Hg|].
      unfold effect. simpl. by rewrite Hpc.
Qed.
End step.

Lemma inv_fire m0 i c c' : inv m0 c → fire i c = Some c' → inv m0 c'.
Proof.
  intros Hinv (g & g' & s' & Hg & Hs & ->)%fire_Some.
  destruct c as [gs s]. by eapply inv_stmt, stmt_Some.
Qed.

Lemma inv_follow m0 sch c c' : inv m0 c → follow sch c = Some c' → inv m0 c'.
Proof.
  revert c. induction sch as [|i sch IH]; intros c Hinv Hf; simplify_eq/=; [done|].
  destruct (fire i c) as [c1|] eqn:Hc1; simplify_eq/=.
  eapply IH; [|done]. by eapply inv_fire.
Qed.

(** ** No deadlock, and a bound on every run *)

Lemma stmt_holding g s : holding g = true → is_Some (stmt g s).
Proof.
  unfold holding, stmt. destruct (at_pc g); try done.
  by destruct (m s !! ID (arg g)).
Qed.

Lemma inv_progress m0 c :
  inv m0 c → ¬ all_returned c → ∃ i c', fire i c = Some c'.
Proof.
  destruct c as [gs s]. intros Hinv Hnot. unfold fire. simpl.
  destruct (writer (mtx s)) eqn:Hw.
  - destruct (inv_held _ _ Hinv Hw) as (i & g & Hg & Hh). simpl in Hg.
    destruct (stmt_holding g s Hh) as [[g' s'] Hs].
    exists i. rewrite Hg. simpl. rewrite Hs. simpl. eauto.
  - apply not_Forall_Exists in Hnot; [|apply _].
    apply Exists_exists in Hnot as (g & Hin & Hres).
    apply list_elem_of_lookup in Hin as [i Hg].
    pose proof (inv_free _ _ Hinv Hw i g Hg) as Hh.
    pose proof (inv_readers _ _ Hinv) as Hr. simpl in Hr, Hg.
    exists i. rewrite Hg. simpl. unfold stmt, Lock.
    unfold holding in Hh. unfold result in Hres. simpl in Hres.
    destruct (at_pc g); try done.
    + rewrite Hw, Hr. simpl. eauto.
    + destruct Hres. eauto.
Qed.

Lemma fire_work i c c' : fire i c = Some c' → work c'.1 < work c.1.
Proof.
  intros (g & g' & s' & Hg & Hs%stmt_Some%stmt_case_todo & ->)%fire_Some.
  simpl. unfold work.
  pose proof (sum_list_insert todo c.1 i g g' Hg). lia.
Qed.

Lemma follow_work sch c c' :
  follow sch c = Some c' → length sch + work c'.1 ≤ work c.1.
Proof.
  revert c. induction sch as [|i sch IH]; intros c Hf; simplify_eq/=; [done|].
  destruct (fire i c) as [c1|] eqn:Hc1; simplify_eq/=.
  apply fire_work in Hc1. apply IH in Hf. lia.
Qed.

Lemma work_spawn bs m0 : work (spawn bs m0).1 = 4 * length bs.
Proof.
  unfold work. simpl. induction bs as [|b bs IH]; [done|].
  cbn [fmap list_fmap sum_list sum_list_with length]. rewrite IH.
  change (todo (mkG b AtLock)) with 4. cbv [id]. lia.
Qed.

(** From every configuration the goroutines can reach, some schedule
    lets all of them return. *)
Lemma can_finish m0 c :
  inv m0 c → ∃ sch c', follow sch c = Some c' ∧ all_returned c'.
Proof.
  remember (work c.1) as n eqn:Hn. revert c Hn.
  induction n as [n IH] using lt_wf_ind. intros c -> Hinv.
  destruct (decide (all_returned c)) as [Hall|Hnot].
  - by exists [], c.
  - destruct (inv_progress m0 c Hinv Hnot) as (i & c1 & Hfire).
    destruct (IH (work c1.1) (fire_work _ _ _ Hfire) c1 eq_refl) as (sch & c' & Hrun & Hall).
    { by eapply inv_fire. }
    exists (i :: sch), c'. simpl. rewrite Hfire. by simpl.
Qed.

(** ** The calls stay the same *)

Lemma fire_args i c c' : fire i c = Some c' → arg <$> c'.1 = arg <$> c.1.
Proof.
  intros (g & g' & s' & Hg & Hs%stmt_Some%stmt_case_arg & ->)%fire_Some.
  simpl. rewrite list_fmap_insert, Hs. apply list_insert_id.
  by rewrite list_lookup_fmap, Hg.
Qed.

Lemma follow_args sch c c' : follow sch c = Some c' → arg <$> c'.1 = arg <$> c.1.
Proof.
  revert c. induction sch as [|i sch IH]; intros c Hf; simplify_eq/=; [done|].
  destruct (fire i c) as [c1|] eqn:Hc1; simplify_eq/=.
  rewrite (IH _ Hf). by eapply fire_args.
Qed.

Lemma spawn_args bs m0 : arg <$> (spawn bs m0).1 = bs.
Proof.
  simpl. induction bs as [|b bs IH]; [done|].
  cbn [fmap list_fmap]. cbn [fmap] in IH. by rewrite IH.
Qed.

(** ** Once every goroutine has returned *)

Lemma effect_returned gs :
  Forall (λ g, is_Some (result g)) gs → omap effect gs = omap outcome gs.
Proof.
  induction 1 as [|g gs [e Hg] _ IH]; simpl; [done|].
  unfold effect, outcome, result in *. destruct (at_pc g); simplify_eq/=.
  by rewrite IH.
Qed.

Lemma outcome_calls gs :
  Forall (λ g, is_Some (result g)) gs → (omap outcome gs).*1 = arg <$> gs.
Proof.
  induction 1 as [|g gs [e Hg] _ IH]; simpl; [done|].
  assert (outcome g = Some (arg g, e)) as -> by (unfold outcome; by rewrite Hg).
  simpl. f_equal. exact IH.
Qed.

Lemma outcome_elem g gs :
  g ∈ gs → is_Some (result g) → ∃ e, result g = Some e ∧ (arg g, e) ∈ omap outcome gs.
Proof.
  intros Hin [e He]. exists e. split; [done|].
  apply list_elem_of_omap. exists g. split; [done|].
  unfold outcome. by rewrite He.
Qed.

Lemma elem_outcome b e gs :
  (b, e) ∈ omap outcome gs → ∃ g, g ∈ gs ∧ arg g = b ∧ result g = Some e.
Proof.
  intros (g & Hin & Ho)%list_elem_of_omap. exists g. split; [done|].
  unfold outcome in Ho. destruct (result g); by simplify_eq/=.
Qed.

(** Counting goroutines by result is counting outcomes by result. *)
Lemma returned_with_outcomes e gs :
  length (filter (λ g, result g = Some e) gs)
  = length (filter (λ p, p.2 = e) (omap outcome gs)).
Proof.
  induction gs as [|g gs IH]; simpl; [done|].
  rewrite filter_cons. unfold outcome at 1.
  destruct (result g) as [e'|] eqn:Hg; simpl.
  - rewrite filter_cons. simpl. destruct (decide (e' = e)) as [->|Hne].
    + rewrite decide_True by done. simpl. f_equal. exact IH.
    + rewrite decide_False by congruence. exact IH.
  - exact IH.
Qed.

(** ** Sequential histories of creates *)

(** Creates of distinct keys, none of them stored: every one succeeds and
    its record is in the final map. *)
Lemma replay_distinct h s s' :
  replay h s = Some s' →
  NoDup ((ID ∘ fst) <$> h) →
  Forall (λ p, s !! ID p.1 = None) h →
  Forall (λ p, p.2 = None ∧ s' !! ID p.1 = Some p.1) h.
Proof.
  revert s. induction h as [|[b e] h IH]; intros s Hh Hnd Hfresh; [done|].
  apply NoDup_cons in Hnd as [Hnotin Hnd].
  apply Forall_cons in Hfresh as [Hb Hfresh]. simpl in *.
  rewrite PostBuild_fresh in Hh by done. simpl in Hh.
  case_decide as He; [|done]. subst e.
  apply Forall_cons. split.
  - split; [done|]. simpl. eapply replay_keeps; [exact Hh|].
    apply lookup_insert_eq.
  - apply (IH _ Hh Hnd). apply Forall_forall. intros p Hp.
    rewrite lookup_insert_ne.
    + by apply (proj1 (Forall_forall _ _) Hfresh).
    + intros Heq. apply Hnotin. apply list_elem_of_fmap. exists p. by split.
Qed.

(** Creates of one key that is stored: every one fails. *)
Lemma replay_taken h s s' id :
  replay h s = Some s' → is_Some (s !! id) →
  Forall (λ p, ID p.1 = id) h →
  Forall (λ p, p.2 = Some ErrAlreadyExists) h ∧ s' = s.
Proof.
  revert s. induction h as [|[b e] h IH]; intros s Hh Hid Hall; simplify_eq/=; [done|].
  apply Forall_cons in Hall as [Hb Hall]. simpl in Hb. subst id.
  rewrite PostBuild_taken in Hh by done. simpl in Hh.
  case_decide as He; [|done]. subst e.
  destruct (IH _ Hh Hid Hall) as [Hrest ->]. split; [|done].
  by apply Forall_cons.
Qed.

(** Creates of one key that is not stored: the first succeeds, the
    others fail, and the map gains the record of the first. *)
Lemma replay_same h s s' id :
  replay h s = Some s' → s !! id = None →
  Forall (λ p, ID p.1 = id) h → h ≠ [] →
  ∃ b h', h = (b, None) :: h' ∧
          Forall (λ p, p.2 = Some ErrAlreadyExists) h' ∧
          s' = <[id := b]> s.
Proof.
  destruct h as [|[b e] h]; intros Hh Hid Hall Hne; [done|].
  apply Forall_cons in Hall as [Hb Hall]. simpl in Hb. subst id. simpl in Hh.
  rewrite PostBuild_fresh in Hh by done. simpl in Hh.
  case_decide as He; [|done]. subst e.
  destruct (replay_taken h _ s' (ID b) Hh) as [Hrest ->]; [|done|].
  { rewrite lookup_insert_eq. by eexists. }
  by exists b, h.
Qed.

Lemma filter_all {A} (P : A → Prop) `{!∀ x, Decision (P x)} (l : list A) :
  Forall P l → filter P l = l.
Proof.
  induction 1 as [|x l Hx _ IH]; [done|].
  rewrite filter_cons, decide_True by done. by rewrite IH.
Qed.

Lemma filter_none {A} (P : A → Prop) `{!∀ x, Decision (P x)} (l : list A) :
  Forall (λ x, ¬ P x) l → filter P l = [].
Proof.
  induction 1 as [|x l Hx _ IH]; [done|].
  rewrite filter_cons, decide_False by done. exact IH.
Qed.

(** ** A goroutine that runs alone *)

(** With no other goroutine, the statements of [PostBuild] run to the
    end, and map and result are those of the sequential [PostBuild]; the
    mutex is unlocked again. *)
Lemma solo_run b m0 :
  ∃ sch, follow sch (spawn [b] m0)
         = Some ([mkG b (Returned (PostBuild b m0).2)],
                 mkService (mkRWMutex false 0) (PostBuild b m0).1).
Proof.
  unfold PostBuild. destruct (m0 !! ID b) as [old|] eqn:Hb.
  - exists [0; 0; 0]. unfold follow, fire, stmt. simpl. by rewrite Hb.
  - exists [0; 0; 0; 0]. unfold follow, fire, stmt. simpl. by rewrite Hb.
Qed.

(** ** Concurrent creates *)

(** C9. Goroutines call [PostBuild], one per build of [bs], on a service
    whose mutex is unlocked and whose map is [m0]; [sch] is any schedule
    the statements can follow, and [c] the configuration it leads to.

    - The goroutines of [c] are still the calls [bs]; the schedule is at
      most [4 * length bs] statements long, and as long as some goroutine
      has not returned some goroutine can run: no call blocks for ever.
    - Once all have returned, results and map are those of the same calls
      made one after the other in some order: each check-then-act took
      place as one step.
    - If the [ID]s are distinct and none is stored in [m0], every call
      returned no error and Read of each [ID] returns its build.
    - If the calls (at least one) share one [ID] that is not stored in
      [m0], exactly one call returned no error, the [length bs - 1] others
      returned [ErrAlreadyExists], and Read returns the build of a call
      that returned no error. *)
Theorem concurrent_create bs m0 sch c :
  follow sch (spawn bs m0) = Some c →
  arg <$> c.1 = bs ∧
  length sch ≤ 4 * length bs ∧
  (¬ all_returned c → ∃ i c', fire i c = Some c') ∧
  (all_returned c →
     (∃ h, h ≡ₚ omap outcome c.1 ∧ replay h m0 = Some (m c.2)) ∧
     (NoDup (ID <$> bs) → (∀ b, b ∈ bs → m0 !! ID b = None) →
        (∀ g, g ∈ c.1 → result g = Some None) ∧
        (∀ b, b ∈ bs → GetBuild (ID b) (m c.2) = (b, None))) ∧
     (∀ id, bs ≠ [] → (∀ b, b ∈ bs → ID b = id) → m0 !! id = None →
        length (returned_with None c) = 1 ∧
        length (returned_with (Some ErrAlreadyExists) c) = length bs - 1 ∧
        ∃ w, w ∈ c.1 ∧ result w = Some None ∧
             GetBuild id (m c.2) = (arg w, None))).
Proof.
  intros Hrun.
  assert (inv m0 c) as Hinv by (eapply inv_follow; [apply inv_spawn|done]).
  assert (arg <$> c.1 = bs) as Hargs.
  { rewrite (follow_args _ _ _ Hrun). apply spawn_args. }
  split; [done|]. split.
  { apply follow_work in Hrun. rewrite work_spawn in Hrun. lia. }
  split; [by apply (inv_progress m0)|].
  intros Hall. unfold all_returned in Hall.
  destruct (inv_lin _ _ Hinv) as (h & Hperm & Hreplay).
  rewrite effect_returned in Hperm by done.
  assert (h.*1 ≡ₚ bs) as Hcalls.
  { rewrite Hperm, outcome_calls by done. by rewrite Hargs. }
  split; [by exists h|]. split.
  - (* distinct keys *)
    intros Hnd Hfresh.
    assert (Forall (λ p, p.2 = None ∧ m c.2 !! ID p.1 = Some p.1) h) as Hh.
    { apply (replay_distinct h m0); [done| |].
      - rewrite list_fmap_compose, Hcalls. done.
      - apply Forall_forall. intros p Hp. apply Hfresh. rewrite <- Hcalls.
        apply list_elem_of_fmap. by exists p. }
    rewrite Forall_forall in Hh. split.
    + intros g Hg.
      destruct (outcome_elem g c.1 Hg) as (e & He & Hin).
      { by apply (proj1 (Forall_forall _ _) Hall). }
      rewrite <- Hperm in Hin. destruct (Hh _ Hin) as [Hnone _].
      simpl in Hnone. by rewrite He, Hnone.
    + intros b Hb. apply GetBuild_Some.
      rewrite <- Hcalls in Hb.
      apply list_elem_of_fmap in Hb as ([b' e] & -> & Hin).
      by destruct (Hh _ Hin) as [_ Hstored].
  - (* one key *)
    intros id Hne Hid Hfresh.
    destruct (replay_same h m0 (m c.2) id) as (b & h' & -> & Hrest & Hm);
      [done|done| |..].
    { apply Forall_forall. intros p Hp. apply Hid. rewrite <- Hcalls.
      apply list_elem_of_fmap. by exists p. }
    { intros ->. apply Permutation_nil_l in Hcalls. by destruct Hne. }
    unfold returned_with. rewrite !returned_with_outcomes, <- !Hperm.
    rewrite !filter_cons. simpl.
    rewrite (filter_none (λ p, p.2 = None) h').
    2:{ eapply Forall_impl; [exact Hrest|]. intros p Hp. simpl in *. congruence. }
    rewrite (filter_all (λ p, p.2 = Some ErrAlreadyExists) h') by done.
    split; [done|]. split.
    { apply Permutation_length in Hcalls. rewrite length_fmap in Hcalls.
      simpl in Hcalls. lia. }
    destruct (elem_outcome b None c.1) as (w & Hw & Harg & Hres).
    { rewrite <- Hperm. apply list_elem_of_here. }
    exists w. split; [done|]. split; [done|].
    apply GetBuild_Some. rewrite Hm, Harg. apply lookup_insert_eq.
Qed.

(** On a new service: two calls race on the key ["x"], and the scheduler
    lets the second goroutine run first; two calls create ["a"] and ["b"]. *)
Lemma concurrent_create_witness :
  (follow [1; 1; 1; 1; 0; 0; 0]
          (spawn [mkBuild "x" "first"; mkBuild "x" "second"] (m NewInmemService))
     = Some ([mkG (mkBuild "x" "first") (Returned (Some ErrAlreadyExists));
              mkG (mkBuild "x" "second") (Returned None)],
             mkService (mkRWMutex false 0) (<["x" := mkBuild "x" "second"]> ∅)) ∧
   length
     (returned_with None
        ([mkG (mkBuild "x" "first") (Returned (Some ErrAlreadyExists));
          mkG (mkBuild "x" "second") (Returned None)],
         mkService (mkRWMutex false 0) (<["x" := mkBuild "x" "second"]> ∅))) = 1) ∧
  (follow [0; 0; 0; 0; 1; 1; 1; 1]
          (spawn [mkBuild "a" "first"; mkBuild "b" "second"] (m NewInmemService))
     = Some ([mkG (mkBuild "a" "first") (Returned None);
              mkG (mkBuild "b" "second") (Returned None)],
             mkService (mkRWMutex false 0)
               (<["b" := mkBuild "b" "second"]> (<["a" := mkBuild "a" "first"]> ∅))) ∧
   GetBuild "b" (<["b" := mkBuild "b" "second"]> (<["a" := mkBuild "a" "first"]> ∅))
     = (mkBuild "b" "second", None)).
Proof.
  split.
  - assert (follow [1; 1; 1; 1; 0; 0; 0]
              (spawn [mkBuild "x" "first"; mkBuild "x" "second"] (m NewInmemService))
            = Some ([mkG (mkBuild "x" "first") (Returned (Some ErrAlreadyExists));
                     mkG (mkBuild "x" "second") (Returned None)],
                    mkService (mkRWMutex false 0) (<["x" := mkBuild "x" "second"]> ∅)))
      as Hrun by (vm_compute; reflexivity).
    split; [exact Hrun|].
    destruct (concurrent_create _ _ _ _ Hrun) as (_ & _ & _ & Hfinal).
    destruct Hfinal as (_ & _ & Hsame).
    { repeat constructor; eexists; reflexivity. }
    destruct (Hsame "x") as [Hone _].
    + discriminate.
    + intros b Hb. apply list_elem_of_In in Hb.
      destruct Hb as [<-|[<-|[]]]; reflexivity.
    + reflexivity.
    + exact Hone.
  - assert (follow [0; 0; 0; 0; 1; 1; 1; 1]
              (spawn [mkBuild "a" "first"; mkBuild "b" "second"] (m NewInmemService))
            = Some ([mkG (mkBuild "a" "first") (Returned None);
                     mkG (mkBuild "b" "second") (Returned None)],
                    mkService (mkRWMutex false 0)
                      (<["b" := mkBuild "b" "second"]>
                         (<["a" := mkBuild "a" "first"]> ∅))))
      as Hrun by (vm_compute; reflexivity).
    split; [exact Hrun|].
    destruct (concurrent_create _ _ _ _ Hrun) as (_ & _ & _ & Hfinal).
    destruct Hfinal as (_ & Hdistinct & _).
    { repeat constructor; eexists; reflexivity. }
    destruct Hdistinct as [_ Hread].
    + apply (bool_decide_unpack _). vm_compute. exact I.
    + intros b Hb. apply list_elem_of_In in Hb.
      destruct Hb as [<-|[<-|[]]]; reflexivity.
    + apply (Hread (mkBuild "b" "second")).
      apply list_elem_of_In. right. left. reflexivity.
Defined.

End ConcProofs.

(** * How the sequential methods compose *)

Module CallsProofs.
Import BuildService BuildServiceProofs Calls.

Implicit Types (s : gmap string Build) (b : Build) (id k : string) (c : call).

Lemma run_app (cs1 cs2 : list call) s : run (cs1 ++ cs2) s = run cs2 (run cs1 s).
Proof. unfold run. apply foldl_app. Qed.

(** ** One key at a time *)

(** X1. A call leaves every record other than the one under its own key
    as it is. *)
Theorem exec_frame c s k :
  k ≠ call_key c → (exec c s).1 !! k = s !! k.
Proof.
  intros Hk. destruct c as [b|id|id b|id b|id]; simpl in *.
  - unfold PostBuild. destruct (s !! ID b); simpl; [done|].
    by rewrite lookup_insert_ne.
  - done.
  - unfold PutBuild. case_decide; simpl; [done|]. by rewrite lookup_insert_ne.
  - unfold PatchBuild. case_decide; simpl; [done|].
    destruct (s !! id); simpl; [|done]. by rewrite lookup_insert_ne.
  - unfold DeleteBuild. destruct (s !! id); simpl; [|done].
    by rewrite lookup_delete_ne.
Qed.

Lemma exec_frame_witness :
  (exec (Delete "x")
        (<["x" := mkBuild "x" "one"]> (<["y" := mkBuild "y" "two"]> NewInmemService))).1 !! "y"
  = (<["x" := mkBuild "x" "one"]> (<["y" := mkBuild "y" "two"]> NewInmemService)) !! "y".
Proof. apply exec_frame. simpl. discriminate. Defined.

(** X2. Which error a method can return: [PostBuild] only
    [ErrAlreadyExists], [GetBuild] and [DeleteBuild] only [ErrNotFound],
    [PutBuild] only [ErrInconsistentIDs], and [PatchBuild] never
    [ErrAlreadyExists]. *)
Theorem error_kinds c s e :
  (exec c s).2 = Some e →
  match c with
  | Create _ => e = ErrAlreadyExists
  | Read _ | Delete _ => e = ErrNotFound
  | Replace _ _ => e = ErrInconsistentIDs
  | PartialUpdate _ _ => e = ErrInconsistentIDs ∨ e = ErrNotFound
  end.
Proof.
  destruct c as [b|id|id b|id b|id]; simpl.
  - unfold PostBuild. destruct (s !! ID b); simpl; congruence.
  - unfold GetBuild. destruct (s !! id); simpl; congruence.
  - unfold PutBuild. case_decide; simpl; congruence.
  - unfold PatchBuild. case_decide; simpl; [intros [= <-]; by left|].
    destruct (s !! id); simpl; [done|]. intros [= <-]. by right.
  - unfold DeleteBuild. destruct (s !! id); simpl; congruence.
Qed.

Lemma error_kinds_witness :
  (exec (PartialUpdate "x" (mkBuild "" "n")) NewInmemService).2 = Some ErrNotFound ∧
  (ErrNotFound = ErrInconsistentIDs ∨ ErrNotFound = ErrNotFound).
Proof.
  split; [reflexivity|].
  apply (error_kinds (PartialUpdate "x" (mkBuild "" "n")) NewInmemService ErrNotFound).
  reflexivity.
Defined.

(** ** Where keys come from *)

Lemma exec_no_add c s k :
  ¬ may_add k c → s !! k = None → (exec c s).1 !! k = None.
Proof.
  intros Hc Hk. destruct (decide (k = call_key c)) as [->|Hne].
  2:{ by rewrite exec_frame. }
  destruct c as [b|id|id b|id b|id]; simpl in *.
  - by destruct Hc.
  - done.
  - unfold PutBuild. case_decide as Hd; simpl; [done|].
    destruct Hc. split; [done|]. by destruct (decide (id = ID b)).
  - unfold PatchBuild. case_decide; simpl; [done|]. by rewrite Hk.
  - unfold DeleteBuild. by rewrite Hk.
Qed.

(** X3. A key that is not in the map, and that no later call adds (no
    Create of that [ID], no Replace under it that passes the check), is
    still not there after the calls: Read returns [Build{}] and
    [ErrNotFound].  PartialUpdate and Delete never add a key. *)
Theorem read_never_added (cs : list call) s k :
  s !! k = None →
  Forall (λ c, ¬ may_add k c) cs →
  GetBuild k (run cs s) = (zeroBuild, Some ErrNotFound).
Proof.
  intros Hk Hcs. apply GetBuild_None. revert s Hk.
  induction Hcs as [|c cs Hc _ IH]; intros s Hk; simpl; [done|].
  apply IH. by apply exec_no_add.
Qed.

Lemma read_never_added_witness :
  GetBuild "x"
    (run [Create (mkBuild "a" "one"); PartialUpdate "x" (mkBuild "x" "two");
          Replace "x" (mkBuild "y" "three"); Delete "x"]
         NewInmemService)
  = (zeroBuild, Some ErrNotFound).
Proof.
  apply read_never_added.
  - reflexivity.
  - apply (bool_decide_unpack _). vm_compute. exact I.
Defined.

(** X4. The stores the service can be in are exactly those that keep
    every record under its own [ID]: such a store is what some sequence of
    calls leaves of a new service, and no other store is. *)
Theorem reachable_iff_keys_match s :
  keys_match s ↔ ∃ cs : list call, run cs NewInmemService = s.
Proof.
  split.
  - induction s as [|k b s Hk IH] using map_ind; intros Hs.
    + by exists [].
    + apply map_Forall_insert in Hs as [Hid Hs]; [|done].
      destruct (IH Hs) as [cs Hcs]. exists (cs ++ [Create b]).
      rewrite run_app, Hcs. simpl. rewrite <- Hid in Hk |- *.
      by rewrite PostBuild_fresh.
  - intros [cs <-]. apply store_inv_run. split; [apply keys_match_empty|].
    apply keys_match_unique_ids, keys_match_empty.
Qed.

(** ** Create, Delete and Replace *)

(** X5. Create of a key that is not stored, then Delete of that key,
    gives back the map as it was, and the Delete returns no error. *)
Theorem create_delete_roundtrip b s :
  s !! ID b = None →
  DeleteBuild (ID b) (PostBuild b s).1 = (s, None).
Proof.
  intros Hb. rewrite PostBuild_fresh by done. simpl.
  rewrite (DeleteBuild_Some _ b) by apply lookup_insert_eq.
  by rewrite delete_insert_id.
Qed.

Lemma create_delete_roundtrip_witness :
  DeleteBuild "x"
    (PostBuild (mkBuild "x" "one") (<["y" := mkBuild "y" "two"]> NewInmemService)).1
  = (<["y" := mkBuild "y" "two"]> NewInmemService, None).
Proof.
  apply (create_delete_roundtrip (mkBuild "x" "one")). reflexivity.
Defined.

(** X6. After Delete(id), whatever it returned, the key is free: a second
    Delete(id) returns [ErrNotFound] and changes nothing, and Create of a
    build with that [ID] returns no error. *)
Theorem delete_frees_key id s :
  DeleteBuild id (DeleteBuild id s).1 = ((DeleteBuild id s).1, Some ErrNotFound) ∧
  ∀ b, ID b = id → (PostBuild b (DeleteBuild id s).1).2 = None.
Proof.
  assert ((DeleteBuild id s).1 !! id = None) as Hfree.
  { unfold DeleteBuild. destruct (s !! id) eqn:Hs; simpl; [|done].
    apply lookup_delete_eq. }
  split.
  - by apply DeleteBuild_None.
  - intros b <-. by rewrite PostBuild_fresh.
Qed.

(** X7. Of two Replace calls under one key the later one decides: the
    first leaves no trace.  With the two builds equal, Replace is
    idempotent. *)
Theorem replace_last_wins id b1 b2 s :
  ID b1 = id → ID b2 = id →
  PutBuild id b2 (PutBuild id b1 s).1 = PutBuild id b2 s.
Proof.
  intros H1 H2. rewrite !PutBuild_same by done. simpl.
  by rewrite insert_insert_eq.
Qed.

Lemma replace_last_wins_witness :
  PutBuild "x" (mkBuild "x" "two")
    (PutBuild "x" (mkBuild "x" "one") NewInmemService).1
  = PutBuild "x" (mkBuild "x" "two") NewInmemService.
Proof. apply replace_last_wins; reflexivity. Defined.

(** X8. A Replace that passes its check is a Create when the key is not
    stored, and a Delete followed by a Create when it is. *)
Theorem replace_as_create id b s :
  ID b = id →
  (s !! id = None → PutBuild id b s = PostBuild b s) ∧
  (is_Some (s !! id) → PutBuild id b s = PostBuild b (DeleteBuild id s).1).
Proof.
  intros <-. rewrite PutBuild_same by done. split.
  - intros Hs. by rewrite PostBuild_fresh.
  - intros [old Hs]. rewrite (DeleteBuild_Some _ old) by done. simpl.
    rewrite PostBuild_fresh by apply lookup_delete_eq.
    by rewrite insert_delete_eq.
Qed.

Lemma replace_as_create_witness :
  PutBuild "x" (mkBuild "x" "two") (<["x" := mkBuild "x" "one"]> NewInmemService)
  = PostBuild (mkBuild "x" "two")
      (DeleteBuild "x" (<["x" := mkBuild "x" "one"]> NewInmemService)).1.
Proof.
  apply (proj2 (replace_as_create "x" (mkBuild "x" "two")
                  (<["x" := mkBuild "x" "one"]> NewInmemService) eq_refl)).
  exists (mkBuild "x" "one"). reflexivity.
Defined.

(** ** PartialUpdate *)

Lemma patched_twice existing b : patched (patched existing b) b = patched existing b.
Proof. unfold patched. by case_decide. Qed.

Lemma patched_Name existing b : Name existing ≠ "" → Name (patched existing b) ≠ "".
Proof. unfold patched. by case_decide. Qed.

(** X9. PartialUpdate is idempotent: the same patch applied a second time
    returns what it returned the first time and leaves the map as the
    first left it. *)
Theorem patch_idempotent id b s :
  PatchBuild id b (PatchBuild id b s).1 = PatchBuild id b s.
Proof.
  unfold PatchBuild. case_decide as Hd; simpl; [done|].
  destruct (s !! id) as [existing|] eqn:Hs; simpl.
  - rewrite lookup_insert_eq. by rewrite patched_twice, insert_insert_eq.
  - by rewrite Hs.
Qed.

(** X10. No PartialUpdate clears a name: a record stored with a non-empty
    [Name] is still stored, with its [ID] and a non-empty [Name], after
    any sequence of PartialUpdate calls, whatever their arguments. *)
Theorem patch_keeps_name (cs : list call) s id existing :
  Forall is_patch cs →
  s !! id = Some existing → Name existing ≠ "" →
  ∃ r, run cs s !! id = Some r ∧ ID r = ID existing ∧ Name r ≠ "".
Proof.
  intros Hcs. revert s existing.
  induction Hcs as [|c cs Hc _ IH]; intros s existing Hs Hname; simpl.
  { by exists existing. }
  destruct c as [| | |id' b|]; try done. simpl.
  assert (∃ r, (PatchBuild id' b s).1 !! id = Some r ∧
               ID r = ID existing ∧ Name r ≠ "") as (r & Hr & Hid & Hn).
  { unfold PatchBuild. case_decide; simpl; [by exists existing|].
    destruct (s !! id') as [e'|] eqn:Hs'; simpl; [|by exists existing].
    destruct (decide (id' = id)) as [->|Hne].
    - simplify_eq. exists (patched existing b). rewrite lookup_insert_eq.
      split; [done|]. split; [apply patched_ID|by apply patched_Name].
    - exists existing. by rewrite lookup_insert_ne. }
  destruct (IH _ _ Hr Hn) as (r' & Hr' & Hid' & Hn').
  exists r'. split; [done|]. split; [congruence|done].
Qed.

Lemma patch_keeps_name_witness :
  ∃ r, run [PartialUpdate "x" (mkBuild "" ""); PartialUpdate "x" (mkBuild "x" "new");
            PartialUpdate "y" (mkBuild "x" "")]
           (<["x" := mkBuild "x" "old"]> NewInmemService) !! "x" = Some r ∧
       ID r = "x" ∧ Name r ≠ "".
Proof.
  apply (patch_keeps_name _ _ "x" (mkBuild "x" "old")).
  - apply (bool_decide_unpack _). vm_compute. exact I.
  - reflexivity.
  - discriminate.
Defined.

(** X11. An empty [ID] in the patch stands for the [id] of the call: the
    two calls return the same and leave the same map. *)
Theorem patch_id_optional id name s :
  PatchBuild id (mkBuild "" name) s = PatchBuild id (mkBuild id name) s.
Proof.
  rewrite !PatchBuild_checked by (simpl; auto). by destruct (s !! id).
Qed.

(** X12. On a store that keeps its records under their [ID]s, a
    PartialUpdate that finds its record is the Replace of that record with
    the patch merged in. *)
Theorem patch_as_replace id b s existing :
  keys_match s → s !! id = Some existing →
  ID b = "" ∨ ID b = id →
  PatchBuild id b s = PutBuild id (patched existing b) s.
Proof.
  intros Hk Hs Hok. rewrite PatchBuild_checked by (destruct Hok; auto).
  rewrite Hs.
  rewrite PutBuild_same; [done|].
  rewrite patched_ID. symmetry. by apply (Hk id).
Qed.

Lemma patch_as_replace_witness :
  PatchBuild "x" (mkBuild "" "new") (<["x" := mkBuild "x" "old"]> NewInmemService)
  = PutBuild "x" (patched (mkBuild "x" "old") (mkBuild "" "new"))
      (<["x" := mkBuild "x" "old"]> NewInmemService).
Proof.
  apply patch_as_replace.
  - apply (bool_decide_unpack _). vm_compute. exact I.
  - reflexivity.
  - left. reflexivity.
Defined.

(** ** The keys of the map *)

(** X13. How a call changes the set of keys: a Create that returns no
    error adds [b.ID], a Replace that returns no error adds [id] (which may
    be there already), a Delete that returns no error removes [id]; Read,
    PartialUpdate and every call that returns an error leave the set of
    keys as it is. *)
Theorem exec_dom c s :
  dom (exec c s).1 =
    match c, (exec c s).2 with
    | Create b, None => {[ID b]} ∪ dom s
    | Replace id _, None => {[id]} ∪ dom s
    | Delete id, None => dom s ∖ {[id]}
    | _, _ => dom s
    end.
Proof.
  destruct c as [b|id|id b|id b|id]; simpl.
  - unfold PostBuild. destruct (s !! ID b); simpl; [done|]. apply dom_insert_L.
  - by destruct (GetBuild id s).2.
  - unfold PutBuild. case_decide; simpl; [done|]. apply dom_insert_L.
  - assert (dom (PatchBuild id b s).1 = dom s) as ->.
    { unfold PatchBuild. case_decide; simpl; [done|].
      destruct (s !! id) eqn:Hs; simpl; [|done].
      apply dom_insert_lookup_L. by rewrite Hs. }
    by destruct (PatchBuild id b s).2.
  - unfold DeleteBuild. destruct (s !! id); simpl; [|done]. apply dom_delete_L.
Qed.

End CallsProofs.

(** * Properties of the five methods under concurrent callers *)

Module GoroutinesProofs.
Import BuildService BuildServiceProofs Conc Calls Goroutines.

Implicit Types (gs : list caller) (g : caller) (c : call) (s : inmemService).

(** ** One statement *)

Lemma sched_Some i (c c' : system) :
  sched i c = Some c' →
  ∃ g g' s', c.1 !! i = Some g ∧ next g c.2 = Some (g', s') ∧
             c' = (<[i := g']> c.1, s').
Proof.
  unfold sched. intros Hf.
  destruct (c.1 !! i) as [g|] eqn:Hg; simpl in Hf; [|done].
  destruct (next g c.2) as [[g' s']|] eqn:Hs; simpl in Hf; [|done].
  exists g, g', s'. by simplify_eq.
Qed.

Ltac next_cases H :=
  repeat match type of H with
    | context [Lock ?mu] =>
        unfold Lock in H; destruct (writer mu) eqn:?; [discriminate|];
        destruct (readers mu) eqn:?; [|discriminate]
    | context [RLock ?mu] =>
        unfold RLock in H; destruct (writer mu) eqn:?; [discriminate|]
    | context [decide ?P] => destruct (decide P)
    | context [m ?s !! ?k] => destruct (m s !! k) eqn:?
    end;
  simplify_eq/=.

Lemma next_req g s g' s' : next g s = Some (g', s') → req g' = req g.
Proof.
  destruct g as [c p]. unfold next. simpl.
  destruct c, p; intros H; try discriminate; next_cases H; done.
Qed.

Lemma next_steps_left g s g' s' :
  next g s = Some (g', s') → steps_left g' < steps_left g.
Proof.
  destruct g as [c p]. unfold next. simpl.
  destruct c, p; intros H; try discriminate; next_cases H;
    unfold steps_left; simpl; lia.
Qed.

Lemma next_lockstep g s g' s' :
  next g s = Some (g', s') → lockstep g g' (mtx s) (mtx s').
Proof.
  destruct g as [c p]. unfold next. simpl.
  destruct c, p; intros H; try discriminate; next_cases H;
    first [ by apply ls_stay
          | by apply ls_lock
          | by apply ls_rlock
          | by apply ls_unlock
          | by apply ls_runlock ].
Qed.

Lemma next_map g s g' s' :
  next g s = Some (g', s') → wholding g = false → m s' = m s.
Proof.
  destruct g as [c p]. unfold next. simpl.
  destruct c, p; intros H; try discriminate; next_cases H; done.
Qed.

Lemma next_writes g s g' s' :
  next g s = Some (g', s') → writes_map g = false → m s' = m s.
Proof.
  destruct g as [c p]. unfold next. simpl.
  destruct c, p; intros H; try discriminate; next_cases H; done.
Qed.

Lemma next_good g s g' s' :
  next g s = Some (g', s') → good g (m s) → good g' (m s').
Proof.
  destruct g as [c p]. unfold next. simpl.
  destruct c, p; intros H; try discriminate; next_cases H;
    unfold good; simpl; try done; try tauto.
  by destruct (decide (id = ID b)).
Qed.

Lemma next_takes_effect g s g' s' :
  next g s = Some (g', s') → takes_effect g g' (m s) (m s').
Proof.
  destruct g as [c p]. unfold next. simpl.
  destruct c, p; intros H; try discriminate; next_cases H;
    first [ by left | right; split; [done|]; eexists; split; [done|] ];
    unfold good, serve; simpl; intros Hgood;
    unfold PostBuild, GetBuild, PutBuild, PatchBuild, DeleteBuild;
    destruct_and?; repeat case_decide;
    try match goal with Hs : is_Some _ |- _ => destruct Hs as [? Hs] end;
    simplify_option_eq; try done; try tauto.
Qed.

(** ** Counting callers *)

Lemma count_insert (f : caller → bool) gs i g g' :
  gs !! i = Some g →
  count f (<[i := g']> gs) + Nat.b2n (f g) = count f gs + Nat.b2n (f g').
Proof.
  intros Hg. unfold count.
  apply (ConcProofs.sum_list_insert (λ g, Nat.b2n (f g)) gs i g g' Hg).
Qed.

Lemma count_cons (f : caller → bool) g gs :
  count f (g :: gs) = Nat.b2n (f g) + count f gs.
Proof. reflexivity. Qed.

Lemma count_one (f : caller → bool) gs i g :
  gs !! i = Some g → Nat.b2n (f g) ≤ count f gs.
Proof.
  revert i. induction gs as [|a gs IH]; intros [|i] Hi; simplify_eq/=;
    rewrite count_cons.
  - lia.
  - specialize (IH i Hi). lia.
Qed.

Lemma count_two (f : caller → bool) gs i j gi gj :
  gs !! i = Some gi → gs !! j = Some gj → i ≠ j →
  Nat.b2n (f gi) + Nat.b2n (f gj) ≤ count f gs.
Proof.
  revert i j. induction gs as [|a gs IH]; intros [|i] [|j] Hi Hj Hne;
    simplify_eq/=; rewrite count_cons.
  - pose proof (count_one f gs j gj Hj). lia.
  - pose proof (count_one f gs i gi Hi). lia.
  - assert (i ≠ j) as Hne' by congruence.
    specialize (IH i j Hi Hj Hne'). lia.
Qed.

Lemma count_start (f : caller → bool) (cs : list call) :
  (∀ c, f (mkCaller c Begin) = false) →
  count f ((λ c, mkCaller c Begin) <$> cs) = 0.
Proof.
  intros Hf. induction cs as [|c cs IH]; [done|].
  rewrite fmap_cons, count_cons, IH, Hf. done.
Qed.

Lemma count_done (f : caller → bool) gs :
  Forall (λ g, is_Some (answer g)) gs →
  (∀ g, is_Some (answer g) → f g = false) →
  count f gs = 0.
Proof.
  intros Hall Hf. induction Hall as [|g gs Hg _ IH]; [done|].
  by rewrite count_cons, IH, Hf.
Qed.

(** ** Sequential histories *)

Lemma replays_app (h1 h2 : list (call * reply)) (mp : gmap string Build) :
  replays (h1 ++ h2) mp = replays h1 mp ≫= replays h2.
Proof.
  revert mp. induction h1 as [|[c r] h1 IH]; intros mp; simpl; [done|].
  case_decide; [apply IH|done].
Qed.

Lemma replays_snoc (h : list (call * reply)) (m0 mp mp' : gmap string Build) c r :
  replays h m0 = Some mp → serve c mp = (mp', r) →
  replays (h ++ [(c, r)]) m0 = Some mp'.
Proof.
  intros Hh Hc. rewrite replays_app, Hh. simpl. rewrite Hc. simpl.
  by rewrite decide_True.
Qed.

(** A history is a sequence of calls: its map is that of [run]. *)
Lemma replays_run (h : list (call * reply)) (m0 mp : gmap string Build) :
  replays h m0 = Some mp → run h.*1 m0 = mp.
Proof.
  revert m0. induction h as [|[c r] h IH]; intros m0 Hh; simplify_eq/=; [done|].
  case_decide; [|done]. rewrite <- (IH _ Hh). by destruct c.
Qed.

(** ** The invariant *)

Lemma good_frame g (mp mp' : gmap string Build) :
  wholding g = false → good g mp → good g mp'.
Proof.
  destruct g as [c p]. unfold wholding, good. simpl.
  destruct c, p; simpl; done.
Qed.

Lemma sound_start (cs : list call) (m0 : gmap string Build) : sound m0 (start cs m0).
Proof.
  unfold start. split; simpl.
  - by rewrite count_start.
  - by rewrite count_start.
  - done.
  - intros i g [c [-> _]]%list_lookup_fmap_Some. unfold good. simpl.
    by destruct c.
  - exists []. split; [|done].
    induction cs as [|c cs IH]; simpl; done.
Qed.

Lemma sound_next m0 gs s i g g' s' :
  sound m0 (gs, s) → gs !! i = Some g → next g s = Some (g', s') →
  sound m0 (<[i := g']> gs, s').
Proof.
  intros [Hr Hw Hx Hgood (h & Hperm & Hreplay)] Hg Hnext. simpl in *.
  pose proof (count_insert wholding gs i g g' Hg) as Hcw.
  pose proof (count_insert rholding gs i g g' Hg) as Hcr.
  pose proof (next_lockstep _ _ _ _ Hnext) as Hlock.
  assert (readers (mtx s') = count rholding (<[i := g']> gs) ∧
          Nat.b2n (writer (mtx s')) = count wholding (<[i := g']> gs) ∧
          (writer (mtx s') = true → readers (mtx s') = 0)) as (Hr' & Hw' & Hx').
  { destruct Hlock as [Hw1 Hr1 Hmu|Hw0 Hr0 Hw1 Hr1 Hwt Hrd Hmu
                      |Hw0 Hr0 Hw1 Hr1 Hwt Hmu
                      |Hw0 Hr0 Hw1 Hr1 Hmu|Hw0 Hr0 Hw1 Hr1 Hmu];
      rewrite Hmu.
    - rewrite Hw1 in Hcw. rewrite Hr1 in Hcr.
      split; [lia|]. split; [lia|done].
    - rewrite Hw0, Hw1 in Hcw. rewrite Hr0, Hr1 in Hcr.
      rewrite Hwt in Hw. simpl in *. split; [lia|]. split; [lia|done].
    - rewrite Hw0, Hw1 in Hcw. rewrite Hr0, Hr1 in Hcr.
      rewrite Hwt in Hw. simpl in *. split; [lia|]. split; [lia|done].
    - rewrite Hw0, Hw1 in Hcw. rewrite Hr0, Hr1 in Hcr. simpl in *.
      split; [lia|]. split; [|done].
      destruct (writer (mtx s)); simpl in *; lia.
    - rewrite Hw0, Hw1 in Hcw. rewrite Hr0, Hr1 in Hcr. simpl in *.
      split; [lia|]. split; [lia|].
      intros Hwt. specialize (Hx Hwt). lia. }
  split; simpl; [done|done|done|..].
  - intros j gj [[-> ->]|[Hne Hj]]%ConcProofs.lookup_insert_cases.
    + eapply next_good; [done|]. by apply (Hgood i g).
    + destruct (wholding g) eqn:Hwg.
      * apply (good_frame gj (m s)); [|by apply (Hgood j gj)].
        pose proof (count_two wholding gs j i gj g Hj Hg Hne) as Htwo.
        rewrite Hwg in Htwo. destruct (wholding gj); [|done].
        destruct (writer (mtx s)); simpl in *; lia.
      * rewrite (next_map _ _ _ _ Hnext Hwg). by apply (Hgood j gj).
  - destruct (next_takes_effect _ _ _ _ Hnext) as [[Hsame ->]|(Hnone & r & Hsome & Hserve)].
    + exists h. split; [|done]. rewrite Hperm.
      by erewrite ConcProofs.omap_insert_same.
    + exists (h ++ [(req g, r)]). split.
      * rewrite (ConcProofs.omap_insert_new settled gs i g g' (req g, r)) by done.
        rewrite Hperm. symmetry. apply Permutation_cons_append.
      * eapply replays_snoc; [done|]. apply Hserve. by apply (Hgood i g).
Qed.

Lemma sound_sched m0 i (c c' : system) :
  sound m0 c → sched i c = Some c' → sound m0 c'.
Proof.
  intros Hinv (g & g' & s' & Hg & Hs & ->)%sched_Some.
  destruct c as [gs s]. by eapply sound_next.
Qed.

Lemma sound_play m0 sch (c c' : system) :
  sound m0 c → play sch c = Some c' → sound m0 c'.
Proof.
  revert c. induction sch as [|i sch IH]; intros c Hinv Hf; simplify_eq/=; [done|].
  destruct (sched i c) as [c1|] eqn:Hc1; simplify_eq/=.
  eapply IH; [|done]. by eapply sound_sched.
Qed.

(** ** Positions and the length of a run *)

Lemma next_fits g s g' s' : next g s = Some (g', s') → fits g' = true.
Proof.
  destruct g as [c p]. unfold next. simpl.
  destruct c, p; intros H; try discriminate; next_cases H; done.
Qed.

Lemma fits_inside_next g s :
  fits g = true → inside (at_pos g) = true → is_Some (next g s).
Proof.
  destruct g as [c p]. unfold fits, next. simpl.
  destruct c, p; simpl; try done; intros _ _;
    repeat case_match; eauto.
Qed.

Lemma fits_play sch (c c' : system) :
  Forall (λ g, fits g = true) c.1 → play sch c = Some c' →
  Forall (λ g, fits g = true) c'.1.
Proof.
  revert c. induction sch as [|i sch IH]; intros c Hfit Hf; simplify_eq/=; [done|].
  destruct (sched i c) as [c1|] eqn:Hc1; simplify_eq/=.
  apply (IH c1); [|done].
  apply sched_Some in Hc1 as (g & g' & s' & Hg & Hs & ->). simpl.
  apply Forall_insert; [done|]. by eapply next_fits.
Qed.

Lemma fits_start (cs : list call) m0 : Forall (λ g, fits g = true) (start cs m0).1.
Proof. simpl. apply Forall_fmap, Forall_forall. intros c _. by destruct c. Qed.

Lemma sched_load i (c c' : system) : sched i c = Some c' → load c'.1 < load c.1.
Proof.
  intros (g & g' & s' & Hg & Hs%next_steps_left & ->)%sched_Some.
  simpl. unfold load.
  pose proof (ConcProofs.sum_list_insert steps_left c.1 i g g' Hg). lia.
Qed.

Lemma play_load sch (c c' : system) :
  play sch c = Some c' → length sch + load c'.1 ≤ load c.1.
Proof.
  revert c. induction sch as [|i sch IH]; intros c Hf; simplify_eq/=; [done|].
  destruct (sched i c) as [c1|] eqn:Hc1; simplify_eq/=.
  apply sched_load in Hc1. apply IH in Hf. lia.
Qed.

Lemma load_start (cs : list call) m0 : load (start cs m0).1 = 5 * length cs.
Proof.
  unfold load. simpl. induction cs as [|c cs IH]; [done|].
  rewrite !fmap_cons. cbn [sum_list sum_list_with length]. rewrite IH.
  change (steps_left (mkCaller c Begin)) with 5. cbv [id]. lia.
Qed.

(** ** The calls stay the same *)

Lemma sched_reqs i (c c' : system) : sched i c = Some c' → req <$> c'.1 = req <$> c.1.
Proof.
  intros (g & g' & s' & Hg & Hs%next_req & ->)%sched_Some.
  simpl. rewrite list_fmap_insert, Hs. apply list_insert_id.
  by rewrite list_lookup_fmap, Hg.
Qed.

Lemma play_reqs sch (c c' : system) : play sch c = Some c' → req <$> c'.1 = req <$> c.1.
Proof.
  revert c. induction sch as [|i sch IH]; intros c Hf; simplify_eq/=; [done|].
  destruct (sched i c) as [c1|] eqn:Hc1; simplify_eq/=.
  rewrite (IH _ Hf). by eapply sched_reqs.
Qed.

Lemma start_reqs (cs : list call) m0 : req <$> (start cs m0).1 = cs.
Proof.
  simpl. induction cs as [|c cs IH]; [done|].
  rewrite !fmap_cons. simpl. f_equal. exact IH.
Qed.

Lemma settled_done gs :
  Forall (λ g, is_Some (answer g)) gs → omap settled gs = omap answered gs.
Proof.
  induction 1 as [|g gs [r Hg] _ IH]; simpl; [done|].
  unfold settled, answered, answer in *. destruct (at_pos g); simplify_eq/=.
  by rewrite IH.
Qed.

Lemma answered_calls gs :
  Forall (λ g, is_Some (answer g)) gs → (omap answered gs).*1 = req <$> gs.
Proof.
  induction 1 as [|g gs [r Hg] _ IH]; simpl; [done|].
  assert (answered g = Some (req g, r)) as -> by (unfold answered; by rewrite Hg).
  simpl. f_equal. exact IH.
Qed.

Lemma sound_reachable (cs : list call) m0 sch (c : system) :
  play sch (start cs m0) = Some c → sound m0 c.
Proof. intros Hrun. eapply sound_play; [apply sound_start|done]. Qed.

(** The caller that holds the write lock is alone inside. *)
Lemma sound_excludes m0 (c : system) i j gi gj :
  sound m0 c → c.1 !! i = Some gi → c.1 !! j = Some gj → i ≠ j →
  wholding gi = true → wholding gj = false ∧ rholding gj = false.
Proof.
  intros Hinv Hi Hj Hne Hwi.
  pose proof (sound_readers _ _ Hinv) as Hr.
  pose proof (sound_writer _ _ Hinv) as Hw.
  pose proof (sound_excl _ _ Hinv) as Hx.
  pose proof (count_two wholding c.1 i j gi gj Hi Hj Hne) as Htwo.
  pose proof (count_one rholding c.1 j gj Hj) as Hone.
  rewrite Hwi in Htwo. simpl in Htwo.
  destruct (writer (mtx c.2)); simpl in Hw; [|lia].
  specialize (Hx eq_refl). split.
  - destruct (wholding gj); [simpl in Htwo; lia|done].
  - destruct (rholding gj); [simpl in Hone; lia|done].
Qed.

(** ** What concurrent callers can rely on *)

(** X14. Any calls, made by concurrent callers under any schedule, come
    out as if made one after the other: once all have returned there is an
    order of the calls in which the sequential methods, started from the
    same map, give every caller the reply it got ([Build] and error) and
    end with the map the service holds. *)
Theorem linearizable (cs : list call) m0 sch (c : system) :
  play sch (start cs m0) = Some c →
  all_done c →
  ∃ h : list (call * reply),
    h ≡ₚ omap answered c.1 ∧ h.*1 ≡ₚ cs ∧
    replays h m0 = Some (m c.2) ∧ run h.*1 m0 = m c.2.
Proof.
  intros Hrun Hall.
  destruct (sound_lin _ _ (sound_reachable _ _ _ _ Hrun)) as (h & Hperm & Hh).
  rewrite settled_done in Hperm by done.
  exists h. split; [done|]. split; [|split; [done|by apply replays_run]].
  rewrite Hperm, answered_calls by done.
  by rewrite (play_reqs _ _ _ Hrun), start_reqs.
Qed.

(** A Replace compares its [ID]s, a Create runs, a Read runs and finds
    the created build, and the Replace goes on to overwrite it. *)
Lemma linearizable_witness :
  ∃ h : list (call * reply),
    h ≡ₚ omap answered
           [mkCaller (Create (mkBuild "x" "one")) (Done (None, None));
            mkCaller (Read "x") (Done (Some (mkBuild "x" "one"), None));
            mkCaller (Replace "x" (mkBuild "x" "two")) (Done (None, None))] ∧
    h.*1 ≡ₚ [Create (mkBuild "x" "one"); Read "x"; Replace "x" (mkBuild "x" "two")] ∧
    replays h ∅ = Some (<["x" := mkBuild "x" "two"]> ∅) ∧
    run h.*1 ∅ = <["x" := mkBuild "x" "two"]> ∅.
Proof.
  refine (linearizable
            [Create (mkBuild "x" "one"); Read "x"; Replace "x" (mkBuild "x" "two")]
            ∅ [2; 0; 0; 0; 0; 1; 1; 1; 2; 2; 2]
            ([mkCaller (Create (mkBuild "x" "one")) (Done (None, None));
              mkCaller (Read "x") (Done (Some (mkBuild "x" "one"), None));
              mkCaller (Replace "x" (mkBuild "x" "two")) (Done (None, None))],
             mkService (mkRWMutex false 0) (<["x" := mkBuild "x" "two"]> ∅)) _ _).
  - vm_compute. reflexivity.
  - repeat constructor; eexists; reflexivity.
Defined.

(** X15. The write lock is exclusive.  In every system the callers can
    reach, while one caller is between [Lock] and [Unlock] no other caller
    is between [Lock] and [Unlock] or between [RLock] and [RUnlock]. *)
Theorem write_lock_excludes (cs : list call) m0 sch (c : system) i j gi gj :
  play sch (start cs m0) = Some c →
  c.1 !! i = Some gi → c.1 !! j = Some gj → i ≠ j →
  wholding gi = true →
  wholding gj = false ∧ rholding gj = false.
Proof.
  intros Hrun. apply (sound_excludes m0). by eapply sound_reachable.
Qed.

(** A Delete has found its record and holds the write lock; a Read waits. *)
Lemma write_lock_excludes_witness :
  wholding (mkCaller (Read "x") Begin) = false ∧
  rholding (mkCaller (Read "x") Begin) = false.
Proof.
  apply (write_lock_excludes [Delete "x"; Read "x"] (<["x" := mkBuild "x" "one"]> ∅)
           [0; 0]
           ([mkCaller (Delete "x") Present; mkCaller (Read "x") Begin],
            mkService (mkRWMutex true 0) (<["x" := mkBuild "x" "one"]> ∅))
           0 1 (mkCaller (Delete "x") Present) (mkCaller (Read "x") Begin)).
  - vm_compute. reflexivity.
  - reflexivity.
  - reflexivity.
  - discriminate.
  - reflexivity.
Defined.

(** X16. No data race on the map.  In every system the callers can
    reach, when the next statement of one caller assigns to [s.m] or
    deletes from it, the next statement of no other caller reads or writes
    [s.m]. *)
Theorem no_data_race (cs : list call) m0 sch (c : system) i j gi gj :
  play sch (start cs m0) = Some c →
  c.1 !! i = Some gi → c.1 !! j = Some gj → i ≠ j →
  writes_map gi = true →
  reads_map gj = false ∧ writes_map gj = false.
Proof.
  intros Hrun Hi Hj Hne Hwi.
  destruct (sound_excludes m0 c i j gi gj) as [Hw Hr]; try done.
  { by eapply sound_reachable. }
  { destruct gi as [ci pi]. unfold writes_map, wholding in *. simpl in *.
    destruct ci, pi; done. }
  destruct gj as [cj pj]. unfold reads_map, writes_map, wholding, rholding in *.
  simpl in *. destruct cj, pj; done.
Qed.

(** A Replace is about to assign; a Create waits for the lock. *)
Lemma no_data_race_witness :
  reads_map (mkCaller (Create (mkBuild "x" "one")) Begin) = false ∧
  writes_map (mkCaller (Create (mkBuild "x" "one")) Begin) = false.
Proof.
  apply (no_data_race [Replace "x" (mkBuild "x" "two"); Create (mkBuild "x" "one")] ∅
           [0; 0]
           ([mkCaller (Replace "x" (mkBuild "x" "two")) Critical;
             mkCaller (Create (mkBuild "x" "one")) Begin],
            mkService (mkRWMutex true 0) ∅)
           0 1 (mkCaller (Replace "x" (mkBuild "x" "two")) Critical)
           (mkCaller (Create (mkBuild "x" "one")) Begin)).
  - vm_compute. reflexivity.
  - reflexivity.
  - reflexivity.
  - discriminate.
  - reflexivity.
Defined.

(** X17. No lock is kept.  In every system the callers can reach, the
    mutex counts as readers exactly the callers between [RLock] and
    [RUnlock] and has a writer exactly when a caller is between [Lock] and
    [Unlock]; once all callers have returned, on whichever path, the mutex
    is unlocked. *)
Theorem mutex_released (cs : list call) m0 sch (c : system) :
  play sch (start cs m0) = Some c →
  readers (mtx c.2) = count rholding c.1 ∧
  Nat.b2n (writer (mtx c.2)) = count wholding c.1 ∧
  (all_done c → mtx c.2 = mkRWMutex false 0).
Proof.
  intros Hrun. pose proof (sound_reachable _ _ _ _ Hrun) as Hinv.
  pose proof (sound_readers _ _ Hinv) as Hr.
  pose proof (sound_writer _ _ Hinv) as Hw.
  split; [done|]. split; [done|]. intros Hall.
  rewrite (count_done rholding) in Hr; [|done|].
  rewrite (count_done wholding) in Hw; [|done|].
  - destruct (mtx c.2) as [w r]. simpl in *. subst r. by destruct w.
  - intros g [r Hg]. unfold wholding, answer in *. by destruct (at_pos g).
  - intros g [r Hg]. unfold rholding, answer in *. by destruct (at_pos g).
Qed.

Lemma mutex_released_witness :
  readers (mkRWMutex false 2) =
    count rholding [mkCaller (Read "x") Critical; mkCaller (Read "y") Critical;
                    mkCaller (Delete "x") Begin] ∧
  Nat.b2n (writer (mkRWMutex false 2)) =
    count wholding [mkCaller (Read "x") Critical; mkCaller (Read "y") Critical;
                    mkCaller (Delete "x") Begin].
Proof.
  destruct (mutex_released [Read "x"; Read "y"; Delete "x"] ∅ [0; 1]
              ([mkCaller (Read "x") Critical; mkCaller (Read "y") Critical;
                mkCaller (Delete "x") Begin],
               mkService (mkRWMutex false 2) ∅)) as (Hr & Hw & _).
  - vm_compute. reflexivity.
  - split; [exact Hr|exact Hw].
Defined.

(** X18. The store invariant holds while callers run.  From a map that
    keeps every record under its own [ID], every system the callers can
    reach, mid-call or not, holds a map that does, with no [ID] stored
    twice. *)
Theorem concurrent_store_invariant (cs : list call) m0 sch (c : system) :
  keys_match m0 →
  play sch (start cs m0) = Some c →
  store_inv (m c.2).
Proof.
  intros Hk Hrun.
  destruct (sound_lin _ _ (sound_reachable _ _ _ _ Hrun)) as (h & _ & Hh).
  rewrite <- (replays_run _ _ _ Hh). apply store_inv_run.
  split; [done|]. by apply keys_match_unique_ids.
Qed.

(** A Replace has assigned and not yet unlocked. *)
Lemma concurrent_store_invariant_witness :
  store_inv (<["x" := mkBuild "x" "two"]> (<["x" := mkBuild "x" "one"]> ∅)).
Proof.
  refine (concurrent_store_invariant
            [Replace "x" (mkBuild "x" "two"); Delete "x"]
            (<["x" := mkBuild "x" "one"]> ∅) [0; 0; 0]
            ([mkCaller (Replace "x" (mkBuild "x" "two")) (ToUnlock (None, None));
              mkCaller (Delete "x") Begin],
             mkService (mkRWMutex true 0)
               (<["x" := mkBuild "x" "two"]> (<["x" := mkBuild "x" "one"]> ∅))) _ _).
  - apply (bool_decide_unpack _). vm_compute. exact I.
  - vm_compute. reflexivity.
Defined.

(** X19. Calls are short, and a caller never waits while it holds the
    mutex.  A schedule of the calls [cs] has at most [5 * length cs]
    statements: no method loops or retries.  And in every system the
    callers can reach, a caller that is between [Lock] and [Unlock], or
    between [RLock] and [RUnlock], can run its next statement: what is left
    of its method, the deferred unlock included, waits for nothing. *)
Theorem calls_bounded (cs : list call) m0 sch (c : system) :
  play sch (start cs m0) = Some c →
  length sch ≤ 5 * length cs ∧
  (∀ i g, c.1 !! i = Some g → inside (at_pos g) = true → is_Some (sched i c)).
Proof.
  intros Hrun.
  pose proof (fits_play _ _ _ (fits_start cs m0) Hrun) as Hfit.
  split.
  { apply play_load in Hrun. rewrite load_start in Hrun. lia. }
  intros i g Hg Hin.
  destruct (fits_inside_next g c.2) as [[g' s'] Hnext]; [|done|].
  { apply (proj1 (Forall_forall _ _) Hfit). by eapply list_elem_of_lookup_2. }
  unfold sched. rewrite Hg. simpl. rewrite Hnext. simpl. eauto.
Qed.

(** Two Reads hold the read lock and a Delete is about to call [Lock]:
    the second Read can go on. *)
Lemma calls_bounded_witness :
  is_Some
    (sched 1 ([mkCaller (Read "x") Critical; mkCaller (Read "y") Critical;
               mkCaller (Delete "x") Begin],
              mkService (mkRWMutex false 2) ∅)).
Proof.
  refine (proj2 (calls_bounded [Read "x"; Read "y"; Delete "x"] ∅ [0; 1]
            ([mkCaller (Read "x") Critical; mkCaller (Read "y") Critical;
              mkCaller (Delete "x") Begin],
             mkService (mkRWMutex false 2) ∅) _)
            1 (mkCaller (Read "y") Critical) _ _).
  - vm_compute. reflexivity.
  - reflexivity.
  - reflexivity.
Defined.

(** X20. A call with no other caller around runs to its end, returns what
    the sequential method returns, leaves the map the sequential method
    leaves, and leaves the mutex unlocked. *)
Theorem lone_call c (m0 : gmap string Build) :
  ∃ sch, play sch (start [c] m0)
         = Some ([mkCaller c (Done (serve c m0).2)],
                 mkService (mkRWMutex false 0) (serve c m0).1).
Proof.
  destruct c as [b|id|id b|id b|id]; unfold serve, exec; simpl.
  - unfold PostBuild. destruct (m0 !! ID b) eqn:Hb.
    + exists [0; 0; 0]. unfold play, sched, next. simpl. by rewrite Hb.
    + exists [0; 0; 0; 0]. unfold play, sched, next. simpl. by rewrite Hb.
  - unfold GetBuild. exists [0; 0; 0]. unfold play, sched, next. simpl.
    by destruct (m0 !! id).
  - unfold PutBuild. destruct (decide (id ≠ ID b)) as [Hne|Heq].
    + exists [0]. unfold play, sched, next. simpl. by rewrite decide_True.
    + exists [0; 0; 0; 0]. unfold play, sched, next. simpl.
      by rewrite decide_False.
  - unfold PatchBuild. destruct (decide (ID b ≠ "" ∧ id ≠ ID b)) as [Hne|Heq].
    + exists [0]. unfold play, sched, next. simpl. by rewrite decide_True.
    + destruct (m0 !! id) eqn:Hid.
      * exists [0; 0; 0; 0; 0]. unfold play, sched, next. simpl.
        rewrite decide_False by done. simpl. by rewrite Hid.
      * exists [0; 0; 0; 0]. unfold play, sched, next. simpl.
        rewrite decide_False by done. simpl. by rewrite Hid.
  - unfold DeleteBuild. destruct (m0 !! id) eqn:Hid.
    + exists [0; 0; 0; 0]. unfold play, sched, next. simpl. by rewrite Hid.
    + exists [0; 0; 0]. unfold play, sched, next. simpl. by rewrite Hid.
Qed.

(** X21. A Read that runs next to one other call, whichever it is and
    however the two are scheduled, returns what a Read made before that
    call or a Read made after it returns: it never sees the call half
    done. *)
Theorem read_before_or_after id (w : call) m0 sch (c : system) :
  play sch (start [Read id; w] m0) = Some c →
  all_done c →
  ∃ r, c.1 !! 0 = Some (mkCaller (Read id) (Done r)) ∧
       (r = (serve (Read id) m0).2 ∨
        r = (serve (Read id) (serve w m0).1).2).
Proof.
  intros Hrun Hall.
  destruct (sound_lin _ _ (sound_reachable _ _ _ _ Hrun)) as (h & Hperm & Hh).
  rewrite settled_done in Hperm by done.
  pose proof (play_reqs _ _ _ Hrun) as Hreq. rewrite start_reqs in Hreq.
  destruct c as [gs s]. simpl in *. unfold all_done in Hall. simpl in Hall.
  destruct gs as [|[c1 p1] [|[c2 p2] [|? ?]]]; simplify_eq/=.
  apply Forall_cons in Hall as [[r1 H1] Hall].
  apply Forall_cons in Hall as [[r2 H2] _].
  unfold answer in H1, H2. simpl in *.
  destruct p1; simplify_eq. destruct p2; simplify_eq.
  exists r1. split; [done|].
  unfold answered, answer in Hperm. simpl in Hperm.
  apply Permutation_sym, Permutation_length_2_inv in Hperm as [->| ->];
    simpl in Hh.
  - case_decide as Hr; [|done]. left. by rewrite <- Hr.
  - case_decide as Hr2; [|done]. case_decide as Hr; [|done].
    right. by rewrite <- Hr.
Qed.

(** The Read takes the read lock first, the Create has to wait, and the
    Read finds nothing. *)
Lemma read_before_or_after_witness :
  ∃ r, [mkCaller (Read "x") (Done (Some zeroBuild, Some ErrNotFound));
        mkCaller (Create (mkBuild "x" "one")) (Done (None, None))] !! 0
       = Some (mkCaller (Read "x") (Done r)) ∧
       (r = (serve (Read "x") ∅).2 ∨
        r = (serve (Read "x") (serve (Create (mkBuild "x" "one")) ∅).1).2).
Proof.
  refine (read_before_or_after "x" (Create (mkBuild "x" "one")) ∅
            [0; 0; 0; 1; 1; 1; 1]
            ([mkCaller (Read "x") (Done (Some zeroBuild, Some ErrNotFound));
              mkCaller (Create (mkBuild "x" "one")) (Done (None, None))],
             mkService (mkRWMutex false 0) (<["x" := mkBuild "x" "one"]> ∅)) _ _).
  - vm_compute. reflexivity.
  - repeat constructor; eexists; reflexivity.
Defined.

End GoroutinesProofs.
